(** * publicious: the channel registry of src/src/publicious.ts

    A shallow embedding of the publish/subscribe dispatcher: the
    [Subscription] hash, the doubly linked [DLLNode] buckets of a
    [Channel], the [PubSub] registry, and the client code (handlers) that
    calls back into the registry while a publish is running.

    Objects are kept in stores and named by references, because the
    code compares them by identity ([===]) and mutates them in place:
    a function object is a [Function] reference, a [DLLNode] lives in
    the store of the channel that created it, a [Channel] object lives
    in the [heap] of the [World].

    The code followed is src/src/publicious.ts, where [publish] takes
    the payload only: [Channel.publish] catches and logs what a handler
    throws, and [PubSub.publish] hands its arguments on as they are.  *)

From Stdlib Require Import ZArith String Ascii List Lia.
From stdpp Require Import base gmap list strings pretty sorting.

Open Scope Z_scope.

(** ** Values *)

(** A function object, by reference: [===] on functions is [=] here. *)
Abbreviation Function := nat (only parsing).

(** The values a publish call can carry ([any]). A [Channel] object is a
    value because handlers receive it as their last argument. *)
#[warnings="-register-all"]
Inductive value : Type :=
| VUndefined
| VNull
| VBool (b : bool)
| VNum (n : Z)
| VStr (s : string)
| VFun (f : Function)
| VObject (props : list (string * value))
| VChannel (c : nat).

(** What can be thrown: the [Error] of [Channel.subscribe], or whatever a
    handler throws. *)
Inductive error : Type :=
| DuplicateSubscriber (f : Function) (namespace : string)
| Thrown (v : value).

(** ** Subscription *)

Module Subscription.

(** [x | 0]: fold a number to a signed 32-bit integer. *)
Definition to_int32 (z : Z) : Z := (z + 2 ^ 31) mod 2 ^ 32 - 2 ^ 31.

(** [/\s/]: the white space among the 8-bit code units. *)
Definition is_white_space (a : ascii) : bool :=
  let n := nat_of_ascii a in
  ((9 <=? n)%nat && (n <=? 13)%nat) || (n =? 32)%nat || (n =? 160)%nat.

(** [str.replace(/\s/g,'')] *)
Fixpoint strip_white_space (str : string) : string :=
  match str with
  | EmptyString => EmptyString
  | String a rest =>
      if is_white_space a then strip_white_space rest
      else String a (strip_white_space rest)
  end.

(** The loop of [hashStr]: [hash = ((hash << 5) - hash) + charCode;
    hash |= 0]. *)
Fixpoint hash_loop (hash : Z) (str : string) : Z :=
  match str with
  | EmptyString => hash
  | String a rest =>
      let code := Z.of_nat (nat_of_ascii a) in
      hash_loop (to_int32 (to_int32 (Z.shiftl hash 5) - hash + code)) rest
  end.

(** [hashStr(str)]: the hash, printed in decimal ([hash.toString()]). *)
Definition hashStr (str : string) : string := pretty (hash_loop 0 str).

End Subscription.

Record Subscription : Type := mkSubscription {
  sub_id : string;
  sub_fn : Function;
  sub_context : value
}.

(** ** DLLNode *)

Record DLLNode : Type := mkNode {
  node_prev : option nat;
  node_next : option nat;
  node_subscription : Subscription;
  node_priority : nat
}.

Definition set_prev (p : option nat) (nd : DLLNode) : DLLNode :=
  mkNode p (node_next nd) (node_subscription nd) (node_priority nd).

Definition set_next (m : option nat) (nd : DLLNode) : DLLNode :=
  mkNode (node_prev nd) m (node_subscription nd) (node_priority nd).

Definition node_fn (nd : DLLNode) : Function := sub_fn (node_subscription nd).
Definition node_id (nd : DLLNode) : string := sub_id (node_subscription nd).

(** ** Channel *)

Definition CLEAR_BITS : Z := 0.
Definition SIG_INT : Z := 1.
Definition PUBLISHING : Z := 2.

(** [nodes] is the store of the [DLLNode] objects the channel created,
    [allocated] the number of them: the next node gets that reference, so
    a later subscription has a larger reference. *)
Record Channel : Type := mkChannel {
  namespace : string;
  _commandMask : Z;
  _priorityMatrix : list (option nat);
  _fnHashMap : gmap string (list nat);
  _callingNode : option nat;
  nodes : gmap nat DLLNode;
  allocated : nat
}.

Definition new_Channel (namespace : string) : Channel :=
  mkChannel namespace 0 [] ∅ None ∅ 0%nat.

Definition set_commandMask (m : Z) (ch : Channel) : Channel :=
  mkChannel (namespace ch) m (_priorityMatrix ch) (_fnHashMap ch)
            (_callingNode ch) (nodes ch) (allocated ch).

Definition set_callingNode (n : option nat) (ch : Channel) : Channel :=
  mkChannel (namespace ch) (_commandMask ch) (_priorityMatrix ch)
            (_fnHashMap ch) n (nodes ch) (allocated ch).

(** [a[i]] read as a condition or a reference: a hole, an index past the
    end and [undefined] are all "no node". *)
Definition array_get (a : list (option nat)) (i : nat) : option nat :=
  mjoin (a !! i).

(** [a[i] = v] on a JavaScript array: past the end, the array grows and
    the indices in between are holes. *)
Definition array_set (a : list (option nat)) (i : nat) (v : option nat)
  : list (option nat) :=
  if decide (i < length a)%nat then <[i := v]> a
  else a ++ replicate (i - length a) None ++ [v].

(** A callback handed to [setTimeout(…, 0, …)]: [this.publish.bind(this)]
    with its [args], or [this.unsubscribe.bind(this)] with its [fn]. *)
Inductive timer : Type :=
| TimerPublish (c : nat) (args : list value)
| TimerUnsubscribe (c : nat) (f : Function).

(** ** Client code *)

Record SubPriority : Type := mkSubPriority { sp_priority : option Z }.

(** The code a handler (or any caller) runs against the registry: a tree
    of calls, each continued with what the call returned or threw. *)
Inductive prog : Type :=
| Return
| Throw (e : error)
| Subscribe (channelName : string) (f : Function)
            (priority : option SubPriority) (context : value)
            (k : error + nat -> prog)
| Unsubscribe (channelName : string) (f : Function) (k : bool -> prog)
| Publish (channelName : string) (args : list value)
          (k : option error -> prog)
| StopPropagation (channel : nat) (k : prog).

(** The functions of a client: the text [fn.toString()] gives, and the
    body run by [fn.apply(context, args)]. *)
Record Program : Type := mkProgram {
  toString : Function -> string;
  code : Function -> value -> list value -> prog
}.

Definition hashFn (P : Program) (f : Function) : string :=
  Subscription.hashStr (Subscription.strip_white_space (toString P f)).

Definition new_DLLNode (P : Program) (f : Function) (context : value)
    (priority : nat) : DLLNode :=
  mkNode None None (mkSubscription (hashFn P f) f context) priority.

(** ** Channel.subscribe and Channel.unsubscribe *)

(** [while (last.next) last = last.next]. No result when the links never
    end. *)
Fixpoint last_from (fuel : nat) (ns : gmap nat DLLNode) (last : nat)
  : option nat :=
  match fuel with
  | O => None
  | S fuel =>
      match ns !! last with
      | None => None
      | Some nd =>
          match node_next nd with
          | None => Some last
          | Some m => last_from fuel ns m
          end
      end
  end.

(** [node.subscription.fn === fn], for the node at a reference. *)
Definition holds_fn (ns : gmap nat DLLNode) (f : Function) (n : nat) : bool :=
  match ns !! n with
  | Some nd => bool_decide (node_fn nd = f)
  | None => false
  end.

(** [Channel.subscribe(fn, priority, context)]: the channel afterwards and
    the error thrown, if any. The node of a rejected subscription is
    dropped with the throw and is not stored. *)
Definition Channel_subscribe (P : Program) (f : Function) (priority : nat)
    (context : value) (ch : Channel) : option (Channel * option error) :=
  let node := new_DLLNode P f context priority in
  let n := allocated ch in
  let fnArray := default [] (_fnHashMap ch !! node_id node) in
  if existsb (holds_fn (nodes ch) f) fnArray
  then Some (ch, Some (DuplicateSubscriber f (namespace ch)))
  else
    let fnHashMap := <[node_id node := fnArray ++ [n]]> (_fnHashMap ch) in
    match array_get (_priorityMatrix ch) priority with
    | Some head =>
        match last_from (S (size (nodes ch))) (nodes ch) head with
        | None => None
        | Some last =>
            let ns := <[n := set_prev (Some last) node]>
                        (alter (set_next (Some n)) last (nodes ch)) in
            Some (mkChannel (namespace ch) (_commandMask ch)
                            (_priorityMatrix ch) fnHashMap (_callingNode ch)
                            ns (S n), None)
        end
    | None =>
        Some (mkChannel (namespace ch) (_commandMask ch)
                        (array_set (_priorityMatrix ch) priority (Some n))
                        fnHashMap (_callingNode ch)
                        (<[n := node]> (nodes ch)) (S n), None)
    end.

(** The [for] loop of [unsubscribe]: the first index of [fnArray] whose
    node holds [fn], with that node. *)
Fixpoint find_fn (ns : gmap nat DLLNode) (f : Function) (fnArray : list nat)
    (idx : nat) : option (nat * nat) :=
  match fnArray with
  | [] => None
  | n :: rest =>
      if holds_fn ns f n then Some (idx, n) else find_fn ns f rest (S idx)
  end.

(** The two branches that take [node] out of its bucket. [node],
    [node.prev] and [node.next] are read before the writes. *)
Definition unlink (n : nat) (nd : DLLNode) (ch : Channel) : Channel :=
  match node_prev nd with
  | None =>
      let ns1 := match node_next nd with
                 | Some m => alter (set_prev None) m (nodes ch)
                 | None => nodes ch
                 end in
      mkChannel (namespace ch) (_commandMask ch)
                (array_set (_priorityMatrix ch) (node_priority nd) (node_next nd))
                (_fnHashMap ch) (_callingNode ch)
                (alter (set_next None) n ns1) (allocated ch)
  | Some p =>
      let ns1 := alter (set_next (node_next nd)) p (nodes ch) in
      let ns2 := match node_next nd with
                 | Some m => alter (set_next None) n
                               (alter (set_prev (Some p)) m ns1)
                 | None => ns1
                 end in
      mkChannel (namespace ch) (_commandMask ch) (_priorityMatrix ch)
                (_fnHashMap ch) (_callingNode ch)
                (alter (set_prev None) n ns2) (allocated ch)
  end.

(** [fnArray.splice(idx, 1)] *)
Definition splice1 (idx : nat) (fnArray : list nat) : list nat :=
  take idx fnArray ++ drop (S idx) fnArray.

Definition set_fnHashMap (m : gmap string (list nat)) (ch : Channel) : Channel :=
  mkChannel (namespace ch) (_commandMask ch) (_priorityMatrix ch) m
            (_callingNode ch) (nodes ch) (allocated ch).

(** [Channel.unsubscribe(fn)] on the channel object [self]: the channel
    afterwards, the callbacks it handed to [setTimeout], and
    [didEvictDLLNode]. *)
Definition Channel_unsubscribe (P : Program) (self : nat) (f : Function)
    (ch : Channel) : Channel * list timer * bool :=
  let id := hashFn P f in
  match _fnHashMap ch !! id with
  | None => (ch, [], false)
  | Some fnArray =>
      match find_fn (nodes ch) f fnArray 0 with
      | None => (ch, [], false)
      | Some (idx, n) =>
          if bool_decide (_callingNode ch = Some n)
             && bool_decide (Z.land (_commandMask ch) SIG_INT = 0)
          then (ch, [TimerUnsubscribe self f], false)
          else
            let ch1 := match nodes ch !! n with
                       | Some nd => unlink n nd ch
                       | None => ch
                       end in
            let fnHashMap :=
              if decide (length fnArray <= 1)%nat
              then delete id (_fnHashMap ch1)
              else <[id := splice1 idx fnArray]> (_fnHashMap ch1) in
            (set_fnHashMap fnHashMap ch1, [], true)
      end
  end.

(** [Channel.hasSubscribers()] *)
Definition hasSubscribers (ch : Channel) : bool :=
  bool_decide (0 < size (_fnHashMap ch))%nat.

(** [Channel.interrupt()], also reachable as [stopPropagation]. *)
Definition Channel_interrupt (ch : Channel) : Channel :=
  set_commandMask (Z.lor (_commandMask ch) SIG_INT) ch.

(** ** The world: registry, channel objects, timers, console, spies *)

(** One record per handler invocation, as a test spy keeps them: the
    channel object, the node and its priority, the function and the
    arguments it was applied to. *)
Record call : Type := mkCall {
  call_channel : nat;
  call_node : nat;
  call_priority : nat;
  call_fn : Function;
  call_args : list value
}.

(** One record per [console.error] of [Channel.publish]. *)
Record log_entry : Type := mkLog {
  log_channel : nat;
  log_node : nat;
  log_error : error
}.

Record World : Type := mkWorld {
  _channels : gmap string nat;
  heap : gmap nat Channel;
  timers : list timer;
  console : list log_entry;
  calls : list call
}.

Definition new_PubSub : World := mkWorld ∅ ∅ [] [] [].

Definition set_channel (c : nat) (ch : Channel) (w : World) : World :=
  mkWorld (_channels w) (<[c := ch]> (heap w)) (timers w) (console w) (calls w).

Definition set_channels (m : gmap string nat) (w : World) : World :=
  mkWorld m (heap w) (timers w) (console w) (calls w).

Definition setTimeout (ts : list timer) (w : World) : World :=
  mkWorld (_channels w) (heap w) (timers w ++ ts) (console w) (calls w).

Definition console_error (e : log_entry) (w : World) : World :=
  mkWorld (_channels w) (heap w) (timers w) (console w ++ [e]) (calls w).

Definition record_call (c : call) (w : World) : World :=
  mkWorld (_channels w) (heap w) (timers w) (console w) (calls w ++ [c]).

(** [channel.stopPropagation()] on a channel object. *)
Definition stopPropagation (c : nat) (w : World) : World :=
  match heap w !! c with
  | Some ch => set_channel c (Channel_interrupt ch) w
  | None => w
  end.

(** ** PubSub.subscribe and PubSub.unsubscribe *)

(** [Math.max(0, Math.min(suggestedPriority, 4))], with
    [suggestedPriority] read off the options. *)
Definition resolve_priority (priority : option SubPriority) : nat :=
  let suggestedPriority :=
    match priority with
    | Some (mkSubPriority (Some p)) => p
    | _ => 4
    end in
  Z.to_nat (Z.max 0 (Z.min suggestedPriority 4)).

(** [PubSub.subscribe]: what it returns is the channel of the handle
    [{channel, fn}], or the error of [Channel.subscribe]. *)
Definition PubSub_subscribe (P : Program) (channelName : string)
    (f : Function) (priority : option SubPriority) (context : value)
    (w : World) : option (World * (error + nat)) :=
  let w1 :=
    match _channels w !! channelName with
    | Some _ => w
    | None =>
        let c := fresh (dom (heap w)) in
        set_channels (<[channelName := c]> (_channels w))
                     (set_channel c (new_Channel channelName) w)
    end in
  c ← _channels w1 !! channelName;
  ch ← heap w1 !! c;
  r ← Channel_subscribe P f (resolve_priority priority) context ch;
  match r with
  | (ch', None) => Some (set_channel c ch' w1, inr c)
  | (_, Some e) => Some (w1, inl e)
  end.

(** [PubSub.unsubscribe]. [fn] is a function, so [typeof fn ===
    "function"] holds. *)
Definition PubSub_unsubscribe (P : Program) (channelName : string)
    (f : Function) (w : World) : World * bool :=
  match _channels w !! channelName with
  | None => (w, false)
  | Some c =>
      match heap w !! c with
      | None => (w, false)
      | Some ch =>
          let '(ch', ts, didUnsubscribe) := Channel_unsubscribe P c f ch in
          let w1 := setTimeout ts (set_channel c ch' w) in
          if didUnsubscribe && negb (hasSubscribers ch')
          then (set_channels (delete channelName (_channels w1)) w1, true)
          else (w1, didUnsubscribe)
      end
  end.

(** ** Publishing *)

Section Publish.

Variable P : Program.

(** [exec] runs client code; [PubSub_publish] and [Channel_publish] are
    the two methods; [for_loop] and [while_loop] are the loops of
    [Channel.publish], entered at their tests. A handler can subscribe
    a handler that subscribes a handler and so on, so the functions
    take fuel and give nothing when it runs out. *)
Fixpoint exec (fuel : nat) (p : prog) (w : World) {struct fuel}
  : option (World * option error) :=
  match fuel with
  | O => None
  | S fuel =>
      match p with
      | Return => Some (w, None)
      | Throw e => Some (w, Some e)
      | Subscribe channelName f priority context k =>
          match PubSub_subscribe P channelName f priority context w with
          | Some (w', r) => exec fuel (k r) w'
          | None => None
          end
      | Unsubscribe channelName f k =>
          let '(w', b) := PubSub_unsubscribe P channelName f w in
          exec fuel (k b) w'
      | Publish channelName args k =>
          match PubSub_publish fuel channelName args w with
          | Some w' => exec fuel (k None) w'
          | None => None
          end
      | StopPropagation c k => exec fuel k (stopPropagation c w)
      end
  end

with PubSub_publish (fuel : nat) (channelName : string)
    (args : list value) (w : World) {struct fuel} : option World :=
  match fuel with
  | O => None
  | S fuel =>
      match _channels w !! channelName with
      | Some c => Channel_publish fuel c args w
      | None => Some w
      end
  end

with Channel_publish (fuel : nat) (c : nat) (args : list value)
    (w : World) {struct fuel} : option World :=
  match fuel with
  | O => None
  | S fuel =>
      ch ← heap w !! c;
      if bool_decide (Z.land (_commandMask ch) PUBLISHING ≠ 0)
      then Some (setTimeout [TimerPublish c args] w)
      else
        for_loop fuel c 0%nat args
          (set_channel c
             (set_commandMask (Z.lor (_commandMask ch) PUBLISHING) ch) w)
  end

with for_loop (fuel : nat) (c : nat) (idx : nat) (args : list value)
    (w : World) {struct fuel} : option World :=
  match fuel with
  | O => None
  | S fuel =>
      ch ← heap w !! c;
      if bool_decide (idx < length (_priorityMatrix ch))%nat
      then while_loop fuel c idx (array_get (_priorityMatrix ch) idx) args w
      else
        Some (set_channel c
                (set_commandMask (Z.land (_commandMask ch) CLEAR_BITS) ch) w)
  end

with while_loop (fuel : nat) (c : nat) (idx : nat) (node : option nat)
    (args : list value) (w : World) {struct fuel} : option World :=
  match fuel with
  | O => None
  | S fuel =>
      match node with
      | None => for_loop fuel c (S idx) args w
      | Some n =>
          ch ← heap w !! c;
          if bool_decide (Z.land (_commandMask ch) SIG_INT ≠ 0)
          then
            Some (set_channel c
                    (set_commandMask (Z.land (_commandMask ch) CLEAR_BITS) ch)
                    w)
          else
            nd ← nodes ch !! n;
            let s := node_subscription nd in
            let w1 := set_channel c (set_callingNode (Some n) ch) w in
            let args' := args ++ [VChannel c] in
            let w2 := record_call (mkCall c n (node_priority nd) (sub_fn s) args') w1 in
            '(w3, r) ← exec fuel (code P (sub_fn s) (sub_context s) args') w2;
            let w4 := match r with
                      | Some err => console_error (mkLog c n err) w3
                      | None => w3
                      end in
            ch4 ← heap w4 !! c;
            nd4 ← nodes ch4 !! n;
            while_loop fuel c idx (node_next nd4) args
              (set_channel c (set_callingNode None ch4) w4)
      end
  end.

(** A callback of the timer queue, run in a turn of its own. *)
Definition run_timer (fuel : nat) (t : timer) (w : World) : option World :=
  match t with
  | TimerPublish c args => Channel_publish fuel c args w
  | TimerUnsubscribe c f =>
      ch ← heap w !! c;
      let '(ch', ts, _) := Channel_unsubscribe P c f ch in
      Some (setTimeout ts (set_channel c ch' w))
  end.

Definition set_timers (ts : list timer) (w : World) : World :=
  mkWorld (_channels w) (heap w) ts (console w) (calls w).

(** The turns after the current one: the queued callbacks, oldest
    first, until the queue is empty. *)
Fixpoint event_loop (fuel : nat) (w : World) {struct fuel} : option World :=
  match fuel with
  | O => None
  | S fuel =>
      match timers w with
      | [] => Some w
      | t :: ts =>
          w' ← run_timer fuel t (set_timers ts w);
          event_loop fuel w'
      end
  end.

End Publish.

(** One step of each function, as an equation. *)
Section Unfold.

Variable P : Program.

Lemma exec_unfold fuel p w :
  exec P (S fuel) p w =
  match p with
  | Return => Some (w, None)
  | Throw e => Some (w, Some e)
  | Subscribe channelName f priority context k =>
      match PubSub_subscribe P channelName f priority context w with
      | Some (w', r) => exec P fuel (k r) w'
      | None => None
      end
  | Unsubscribe channelName f k =>
      let '(w', b) := PubSub_unsubscribe P channelName f w in
      exec P fuel (k b) w'
  | Publish channelName args k =>
      match PubSub_publish P fuel channelName args w with
      | Some w' => exec P fuel (k None) w'
      | None => None
      end
  | StopPropagation c k => exec P fuel k (stopPropagation c w)
  end.
Proof. reflexivity. Qed.

Lemma PubSub_publish_unfold fuel channelName args w :
  PubSub_publish P (S fuel) channelName args w =
  match _channels w !! channelName with
  | Some c => Channel_publish P fuel c args w
  | None => Some w
  end.
Proof. reflexivity. Qed.

Lemma Channel_publish_unfold fuel c args w :
  Channel_publish P (S fuel) c args w =
  (ch ← heap w !! c;
   if bool_decide (Z.land (_commandMask ch) PUBLISHING ≠ 0)
   then Some (setTimeout [TimerPublish c args] w)
   else
     for_loop P fuel c 0%nat args
       (set_channel c
          (set_commandMask (Z.lor (_commandMask ch) PUBLISHING) ch) w)).
Proof. reflexivity. Qed.

Lemma for_loop_unfold fuel c idx args w :
  for_loop P (S fuel) c idx args w =
  (ch ← heap w !! c;
   if bool_decide (idx < length (_priorityMatrix ch))%nat
   then while_loop P fuel c idx (array_get (_priorityMatrix ch) idx) args w
   else
     Some (set_channel c
             (set_commandMask (Z.land (_commandMask ch) CLEAR_BITS) ch) w)).
Proof. reflexivity. Qed.

Lemma while_loop_unfold fuel c idx node args w :
  while_loop P (S fuel) c idx node args w =
  match node with
  | None => for_loop P fuel c (S idx) args w
  | Some n =>
      ch ← heap w !! c;
      if bool_decide (Z.land (_commandMask ch) SIG_INT ≠ 0)
      then
        Some (set_channel c
                (set_commandMask (Z.land (_commandMask ch) CLEAR_BITS) ch) w)
      else
        nd ← nodes ch !! n;
        let s := node_subscription nd in
        let w1 := set_channel c (set_callingNode (Some n) ch) w in
        let args' := args ++ [VChannel c] in
        let w2 := record_call (mkCall c n (node_priority nd) (sub_fn s) args') w1 in
        '(w3, r) ← exec P fuel (code P (sub_fn s) (sub_context s) args') w2;
        let w4 := match r with
                  | Some err => console_error (mkLog c n err) w3
                  | None => w3
                  end in
        ch4 ← heap w4 !! c;
        nd4 ← nodes ch4 !! n;
        while_loop P fuel c idx (node_next nd4) args
          (set_channel c (set_callingNode None ch4) w4)
  end.
Proof. reflexivity. Qed.

End Unfold.

Arguments exec : simpl never.
Arguments PubSub_publish : simpl never.
Arguments Channel_publish : simpl never.
Arguments for_loop : simpl never.
Arguments while_loop : simpl never.
(** * Invariants *)

(** ** Arrays with holes *)

Lemma array_get_set_eq a i v : array_get (array_set a i v) i = v.
Proof.
  unfold array_get, array_set. case_decide.
  - by rewrite list_lookup_insert_eq.
  - rewrite lookup_app_r by lia. rewrite lookup_app_r; rewrite length_replicate; [|lia].
    by replace (i - length a - (i - length a))%nat with 0%nat by lia.
Qed.

Lemma array_get_set_ne a i j v :
  i ≠ j → array_get (array_set a i v) j = array_get a j.
Proof.
  intros Hne. unfold array_get, array_set. case_decide.
  - by rewrite list_lookup_insert_ne.
  - destruct (decide (j < length a)%nat).
    + by rewrite lookup_app_l.
    + rewrite (lookup_ge_None_2 a j) by lia.
      rewrite lookup_app_r by lia.
      destruct (decide (j < i)%nat).
      * rewrite lookup_app_l by (rewrite length_replicate; lia).
        by rewrite lookup_replicate_2 by lia.
      * rewrite lookup_app_r by (rewrite length_replicate; lia).
        rewrite length_replicate.
        destruct (j - length a - (i - length a))%nat eqn:E; [lia|done].
Qed.

Lemma array_set_length a i v :
  length (array_set a i v) = (length a `max` S i)%nat.
Proof.
  unfold array_set. case_decide.
  - rewrite length_insert. lia.
  - rewrite !length_app, length_replicate. simpl. lia.
Qed.

Lemma array_get_ge a i : (length a ≤ i)%nat → array_get a i = None.
Proof. intros. unfold array_get. by rewrite lookup_ge_None_2. Qed.

Lemma array_get_Some_lt a i n : array_get a i = Some n → (i < length a)%nat.
Proof.
  intros H. destruct (decide (i < length a)%nat); [done|].
  rewrite array_get_ge in H; [done|lia].
Qed.

(** ** Segments of linked nodes *)

(** [lseg ns p cur l stop]: starting at [cur], whose predecessor is [p],
    the [next] links run through exactly the nodes [l] and arrive at
    [stop], and every [prev] link points one step back. *)
Fixpoint lseg (ns : gmap nat DLLNode) (p cur : option nat) (l : list nat)
    (stop : option nat) : Prop :=
  match l with
  | [] => cur = stop
  | n :: l' =>
      cur = Some n ∧
      ∃ nd, ns !! n = Some nd ∧ node_prev nd = p ∧
            lseg ns (Some n) (node_next nd) l' stop
  end.

(** The last node of [l], or [p] when there is none. *)
Definition last_or (p : option nat) (l : list nat) : option nat :=
  match last l with
  | Some x => Some x
  | None => p
  end.

Lemma last_or_cons p n l : last_or p (n :: l) = last_or (Some n) l.
Proof.
  unfold last_or. destruct l as [|m l]; [done|].
  rewrite last_cons_cons. by destruct (last (m :: l)) eqn:E;
    [|apply last_None in E].
Qed.

Lemma lseg_app ns p cur l1 l2 stop :
  lseg ns p cur (l1 ++ l2) stop ↔
  ∃ mid, lseg ns p cur l1 mid ∧ lseg ns (last_or p l1) mid l2 stop.
Proof.
  revert p cur. induction l1 as [|n l1 IH]; intros p cur; simpl.
  - split.
    + intros H. exists cur. split; [done|]. exact H.
    + intros (mid & -> & H). exact H.
  - split.
    + intros (-> & nd & Hn & Hp & H). apply IH in H as (mid & H1 & H2).
      exists mid. rewrite last_or_cons. split; [|done].
      split; [done|]. by exists nd.
    + intros (mid & (-> & nd & Hn & Hp & H1) & H2). split; [done|].
      exists nd. split; [done|]. split; [done|]. apply IH. exists mid.
      rewrite last_or_cons in H2. done.
Qed.

Lemma lseg_frame ns ns' p cur l stop :
  (∀ n, n ∈ l → ns' !! n = ns !! n) →
  lseg ns p cur l stop → lseg ns' p cur l stop.
Proof.
  revert p cur. induction l as [|n l IH]; intros p cur Hsame; simpl; [done|].
  intros (-> & nd & Hn & Hp & H). split; [done|]. exists nd.
  rewrite Hsame by apply list_elem_of_here. split; [done|]. split; [done|].
  apply IH; [|done]. intros m Hm. apply Hsame. by apply list_elem_of_further.
Qed.

Lemma lseg_lookup ns p cur l stop n :
  lseg ns p cur l stop → n ∈ l → is_Some (ns !! n).
Proof.
  revert p cur. induction l as [|m l IH]; intros p cur; simpl.
  - intros _ H. by apply elem_of_nil in H.
  - intros (-> & nd & Hn & Hp & H) [->|Hin]%elem_of_cons; [by eexists|].
    eapply IH; eauto.
Qed.

Lemma lseg_head ns p cur l stop :
  lseg ns p cur l stop → cur = match l with [] => stop | n :: _ => Some n end.
Proof. destruct l; simpl; [done|]. by intros (-> & _). Qed.

(** A bucket: the segment from the head stored in the matrix to the end. *)
Definition chain (ns : gmap nat DLLNode) (head : option nat) (l : list nat)
  : Prop := lseg ns None head l None.

Lemma chain_nil_inv ns l : chain ns None l → l = [].
Proof. destruct l; [done|]. by intros (? & _). Qed.

Lemma last_from_chain ns l : ∀ p h fuel,
  lseg ns p (Some h) l None → (length l ≤ fuel)%nat →
  ∃ l0 x, l = l0 ++ [x] ∧ last_from fuel ns h = Some x.
Proof.
  induction l as [|n l IH]; intros p h fuel; simpl; [done|].
  intros ([= ->] & nd & Hn & Hp & H) Hfuel.
  destruct fuel as [|fuel]; [lia|]. simpl. rewrite Hn.
  destruct l as [|m l].
  - simpl in H. rewrite H. by exists [], n.
  - pose proof (lseg_head _ _ _ _ _ H) as Hnext. rewrite Hnext in H |- *.
    destruct (IH _ _ fuel H) as (l0 & x & -> & Hl); [simpl in *; lia|].
    exists (n :: l0), x. by rewrite Hl.
Qed.

Lemma NoDup_length_le_size (ns : gmap nat DLLNode) (l : list nat) :
  NoDup l → (∀ n, n ∈ l → is_Some (ns !! n)) → (length l ≤ size ns)%nat.
Proof.
  intros Hnd Hin. rewrite <- size_dom. unfold size at 1, set_size. simpl.
  apply submseteq_length, NoDup_submseteq; [done|].
  intros n Hn. apply elem_of_elements, elem_of_dom. by apply Hin.
Qed.

(** ** The buckets a channel represents *)

Definition bucket_set (bs : nat → list nat) (i : nat) (l : list nat)
  : nat → list nat :=
  λ j, if decide (j = i) then l else bs j.

Lemma bucket_set_eq bs i l : bucket_set bs i l i = l.
Proof. unfold bucket_set. by rewrite decide_True. Qed.

Lemma bucket_set_ne bs i j l : j ≠ i → bucket_set bs i l j = bs j.
Proof. intros. unfold bucket_set. by rewrite decide_False. Qed.

(** What a node carries besides its links. *)
Definition payload (nd : DLLNode) : Subscription * nat :=
  (node_subscription nd, node_priority nd).

Definition info (ns : gmap nat DLLNode) (n : nat)
  : option (Subscription * nat) :=
  payload <$> ns !! n.

Lemma info_Some ns n s p :
  info ns n = Some (s, p) ↔
  ∃ nd, ns !! n = Some nd ∧ node_subscription nd = s ∧ node_priority nd = p.
Proof.
  unfold info, payload. destruct (ns !! n) as [nd|]; simpl.
  - split; [intros [= <- <-]; eauto|intros (? & [= <-] & <- & <-); done].
  - split; [done|intros (? & ? & _); done].
Qed.

Lemma info_alter_next ns v n m : info (alter (set_next v) n ns) m = info ns m.
Proof.
  unfold info. destruct (decide (n = m)) as [->|].
  - rewrite lookup_alter_eq. by destruct (ns !! m).
  - by rewrite lookup_alter_ne.
Qed.

Lemma info_alter_prev ns v n m : info (alter (set_prev v) n ns) m = info ns m.
Proof.
  unfold info. destruct (decide (n = m)) as [->|].
  - rewrite lookup_alter_eq. by destruct (ns !! m).
  - by rewrite lookup_alter_ne.
Qed.

Lemma info_insert ns n nd m :
  info (<[n := nd]> ns) m = if decide (m = n) then Some (payload nd) else info ns m.
Proof.
  unfold info. case_decide as E.
  - subst. by rewrite lookup_insert_eq.
  - by rewrite lookup_insert_ne.
Qed.

Section Repr.

Variable P : Program.

(** The links of the store spell out the buckets [bs], and a node
    outside its bucket has no links. *)
Record links_ok (ns : gmap nat DLLNode) (matrix : list (option nat))
    (bs : nat → list nat) : Prop := mkLinks {
  links_chain : ∀ i, chain ns (array_get matrix i) (bs i);
  links_detached : ∀ n nd, ns !! n = Some nd →
    n ∉ bs (node_priority nd) → node_prev nd = None ∧ node_next nd = None
}.

(** The nodes of bucket [i] have priority [i], were created in the
    order they stand in, and [_fnHashMap] indexes exactly the nodes of
    the buckets by the hash of their function; no function is held by
    two of them. *)
Record payload_ok (inf : nat → option (Subscription * nat))
    (fnHashMap : gmap string (list nat)) (alloc : nat)
    (bs : nat → list nat) : Prop := mkPayload {
  pay_sorted : ∀ i, StronglySorted lt (bs i);
  pay_priority : ∀ i n, n ∈ bs i → ∃ s, inf n = Some (s, i);
  pay_allocated : ∀ n, is_Some (inf n) → (n < alloc)%nat;
  pay_index : ∀ id fnArray, fnHashMap !! id = Some fnArray →
    fnArray ≠ [] ∧ NoDup fnArray ∧
    ∀ n, n ∈ fnArray → ∃ s p, inf n = Some (s, p) ∧ sub_id s = id ∧ n ∈ bs p;
  pay_indexed : ∀ n s p, inf n = Some (s, p) → n ∈ bs p →
    ∃ fnArray, fnHashMap !! sub_id s = Some fnArray ∧ n ∈ fnArray;
  pay_id : ∀ n s p, inf n = Some (s, p) → sub_id s = hashFn P (sub_fn s);
  pay_fn : ∀ n m s s' p p', inf n = Some (s, p) → inf m = Some (s', p') →
    n ∈ bs p → m ∈ bs p' → sub_fn s = sub_fn s' → n = m
}.

(** [repr ch bs]: bucket [i] of the channel holds the nodes [bs i], in
    that order. *)
Definition repr (ch : Channel) (bs : nat → list nat) : Prop :=
  links_ok (nodes ch) (_priorityMatrix ch) bs ∧
  payload_ok (info (nodes ch)) (_fnHashMap ch) (allocated ch) bs.

(** [fn] is subscribed: a node of some bucket holds it. *)
Definition registered (ch : Channel) (bs : nat → list nat) (f : Function)
  : Prop :=
  ∃ n nd, nodes ch !! n = Some nd ∧ n ∈ bs (node_priority nd) ∧
          node_fn nd = f.

Lemma sorted_NoDup (l : list nat) : StronglySorted lt l → NoDup l.
Proof.
  induction 1 as [|x l Hs IH Hall]; constructor; [|done].
  intros Hin. rewrite Forall_forall in Hall. specialize (Hall _ Hin). lia.
Qed.

Lemma payload_ok_ext inf inf' fnHashMap alloc bs :
  (∀ n, inf' n = inf n) →
  payload_ok inf fnHashMap alloc bs → payload_ok inf' fnHashMap alloc bs.
Proof.
  intros E [H1 H2 H3 H4 H5 H6 H7].
  split; try done; setoid_rewrite E; done.
Qed.

Lemma pay_NoDup inf fnHashMap alloc bs i :
  payload_ok inf fnHashMap alloc bs → NoDup (bs i).
Proof. intros H. apply sorted_NoDup, H. Qed.

Lemma pay_disjoint inf fnHashMap alloc bs i j n :
  payload_ok inf fnHashMap alloc bs → n ∈ bs i → n ∈ bs j → i = j.
Proof.
  intros H Hi Hj. destruct (pay_priority _ _ _ _ H _ _ Hi) as (s & Hs).
  destruct (pay_priority _ _ _ _ H _ _ Hj) as (s' & Hs'). congruence.
Qed.

Lemma repr_new namespace : repr (new_Channel namespace) (λ _, []).
Proof.
  assert (Hnil : ∀ n : nat, n ∉ @nil nat) by (intros n H; inversion H).
  split; split; simpl.
  - intros i. unfold chain, array_get. simpl. destruct i; reflexivity.
  - intros n nd H. by rewrite lookup_empty in H.
  - intros; constructor.
  - intros i n H. by apply Hnil in H.
  - intros n [? H]. unfold info in H. by rewrite lookup_empty in H.
  - intros id fa H. by rewrite lookup_empty in H.
  - intros n s p H. unfold info in H. by rewrite lookup_empty in H.
  - intros n s p H. unfold info in H. by rewrite lookup_empty in H.
  - intros n m s s' p p' _ _ H. by apply Hnil in H.
Qed.

Lemma existsb_holds_fn ch bs f :
  repr ch bs →
  existsb (holds_fn (nodes ch) f)
          (default [] (_fnHashMap ch !! hashFn P f)) = true ↔
  registered ch bs f.
Proof.
  intros [_ H]. rewrite existsb_exists. split.
  - intros (n & Hin & Hf). apply list_elem_of_In in Hin.
    unfold holds_fn in Hf. destruct (nodes ch !! n) as [nd|] eqn:Hn; [|done].
    apply bool_decide_eq_true in Hf.
    destruct (_fnHashMap ch !! hashFn P f) as [arr|] eqn:Harr; simpl in Hin;
      [|by apply elem_of_nil in Hin].
    destruct (pay_index _ _ _ _ H _ _ Harr) as (_ & _ & Hall).
    destruct (Hall _ Hin) as (s & p & (nd' & Hn' & <- & <-)%info_Some & _ & Hb).
    exists n, nd. split; [done|]. split; [congruence|done].
  - intros (n & nd & Hn & Hin & Hf).
    assert (Hi : info (nodes ch) n = Some (node_subscription nd, node_priority nd))
      by (apply info_Some; eauto).
    destruct (pay_indexed _ _ _ _ H _ _ _ Hi Hin) as (arr & Harr & Hin').
    rewrite (pay_id _ _ _ _ H _ _ _ Hi) in Harr. unfold node_fn in Hf.
    rewrite Hf in Harr. rewrite Harr. simpl.
    exists n. split; [by apply list_elem_of_In|].
    unfold holds_fn. rewrite Hn. by apply bool_decide_eq_true.
Qed.

Lemma sorted_snoc (l : list nat) (n : nat) :
  StronglySorted lt l → (∀ m, m ∈ l → (m < n)%nat) →
  StronglySorted lt (l ++ [n]).
Proof.
  intros Hs Hlt. apply StronglySorted_app. split; [|split; [done|]].
  - intros x y Hx ->%list_elem_of_singleton. by apply Hlt.
  - repeat constructor.
Qed.

(** The index and the payload after a subscription. *)
Lemma payload_ok_subscribe inf fnHashMap alloc bs f context priority :
  payload_ok inf fnHashMap alloc bs →
  (∀ n s p, inf n = Some (s, p) → n ∈ bs p → sub_fn s ≠ f) →
  payload_ok
    (λ m, if decide (m = alloc)
          then Some (mkSubscription (hashFn P f) f context, priority)
          else inf m)
    (<[hashFn P f := default [] (fnHashMap !! hashFn P f) ++ [alloc]]> fnHashMap)
    (S alloc)
    (bucket_set bs priority (bs priority ++ [alloc])).
Proof.
  intros H Hnew.
  assert (Hfresh : inf alloc = None).
  { destruct (inf alloc) eqn:E; [|done].
    assert (alloc < alloc)%nat by (apply (pay_allocated _ _ _ _ H); eauto). lia. }
  assert (Hlt : ∀ i m, m ∈ bs i → (m < alloc)%nat).
  { intros i m Hin. destruct (pay_priority _ _ _ _ H _ _ Hin) as (? & ?).
    apply (pay_allocated _ _ _ _ H). eauto. }
  assert (Hnotin : ∀ i, alloc ∉ bs i).
  { intros i Hin. apply Hlt in Hin. lia. }
  assert (Hmem : ∀ m p, m ≠ alloc → m ∈ bs p ↔
             m ∈ bucket_set bs priority (bs priority ++ [alloc]) p).
  { intros m p Hm. unfold bucket_set. case_decide; [subst|done]. set_solver. }
  set (arr := default [] (fnHashMap !! hashFn P f)).
  assert (Harr : NoDup arr ∧ ∀ m, m ∈ arr →
            ∃ s p, inf m = Some (s, p) ∧ sub_id s = hashFn P f ∧ m ∈ bs p).
  { unfold arr. destruct (fnHashMap !! hashFn P f) as [a|] eqn:E; simpl.
    - by apply (pay_index _ _ _ _ H _ _ E).
    - split; [constructor|]. intros m Hm. by apply elem_of_nil in Hm. }
  destruct Harr as [HarrND Harr].
  split.
  - intros i. unfold bucket_set. case_decide; [|apply H].
    apply sorted_snoc; [apply H|]. apply Hlt.
  - intros i n Hn. case_decide as Hna.
    + subst n. unfold bucket_set in Hn. case_decide; [subst; eauto|].
      by apply Hnotin in Hn.
    + apply Hmem in Hn; [|done]. by apply (pay_priority _ _ _ _ H).
  - intros n Hn. case_decide; [lia|].
    apply (pay_allocated _ _ _ _ H) in Hn. lia.
  - intros id fa. destruct (decide (id = hashFn P f)) as [->|Hid].
    + rewrite lookup_insert_eq. intros [= <-]. split; [by destruct arr|].
      split.
      { apply NoDup_app. split; [done|]. split; [|apply NoDup_singleton].
        intros m Hm ->%list_elem_of_singleton.
        destruct (Harr _ Hm) as (? & ? & ? & _). congruence. }
      intros m [Hm|Hm%list_elem_of_singleton]%elem_of_app.
      * destruct (Harr _ Hm) as (s & p & Hi & Hs & Hb).
        assert (m ≠ alloc) by congruence. exists s, p.
        rewrite decide_False by done. by rewrite <- Hmem.
      * subst m. rewrite decide_True by done. eexists _, _.
        split; [done|]. split; [done|]. rewrite bucket_set_eq. set_solver.
    + rewrite lookup_insert_ne by done. intros Hfa.
      destruct (pay_index _ _ _ _ H _ _ Hfa) as (Hne & Hnd & Hall).
      split; [done|]. split; [done|]. intros m Hm.
      destruct (Hall _ Hm) as (s & p & Hi & Hs & Hb).
      assert (m ≠ alloc) by congruence. exists s, p.
      rewrite decide_False by done. by rewrite <- Hmem.
  - intros n s p. case_decide as Hna.
    + subst n. intros [= <- <-] _. simpl. rewrite lookup_insert_eq.
      eexists. split; [done|]. set_solver.
    + intros Hi Hb. apply Hmem in Hb; [|done].
      destruct (pay_indexed _ _ _ _ H _ _ _ Hi Hb) as (fa & Hfa & Hin).
      destruct (decide (sub_id s = hashFn P f)) as [E|E].
      * rewrite E, lookup_insert_eq. eexists. split; [done|].
        rewrite E in Hfa. unfold arr. rewrite Hfa. set_solver.
      * rewrite lookup_insert_ne by done. eauto.
  - intros n s p. case_decide; [by intros [= <- <-]|]. apply H.
  - intros n m s s' p p'. do 2 case_decide; subst.
    + done.
    + intros [= <- <-] Hi _ Hb Hf. apply Hmem in Hb; [|done].
      simpl in Hf. symmetry in Hf. by apply Hnew in Hi.
    + intros Hi [= <- <-] Hb _ Hf. apply Hmem in Hb; [|done].
      simpl in Hf. by apply Hnew in Hi.
    + intros Hi Hi' Hb Hb'. apply Hmem in Hb, Hb'; [|done..].
      by apply (pay_fn _ _ _ _ H _ _ _ _ _ _ Hi Hi').
Qed.

(** The links after a node is appended behind the last node [x] of a
    bucket. *)
Lemma links_ok_append ns matrix bs priority l0 x ndx n node :
  links_ok ns matrix bs →
  (∀ i m, m ∈ bs i → ∃ nd, ns !! m = Some nd ∧ node_priority nd = i) →
  NoDup (bs priority) →
  bs priority = l0 ++ [x] → ns !! x = Some ndx →
  ns !! n = None →
  node_prev node = Some x → node_next node = None →
  node_priority node = priority →
  links_ok (<[n := node]> (alter (set_next (Some n)) x ns)) matrix
           (bucket_set bs priority (bs priority ++ [n])).
Proof.
  intros [Hch Hdet] Hprio Hnd Hl Hx Hn Hnp Hnn Hnpr.
  assert (Hnotin : ∀ i, n ∉ bs i).
  { intros i Hin. destruct (Hprio _ _ Hin) as (? & ? & _). congruence. }
  assert (Hxin : x ∈ bs priority) by (rewrite Hl; set_solver).
  assert (Hxn : x ≠ n) by congruence.
  assert (Hx0 : x ∉ l0).
  { rewrite Hl in Hnd. apply NoDup_app in Hnd as (_ & Hd & _). intros Hin.
    apply (Hd _ Hin). set_solver. }
  assert (Hxp : node_priority ndx = priority).
  { destruct (Hprio _ _ Hxin) as (? & ? & ?). congruence. }
  split.
  - intros i. unfold bucket_set. case_decide as Hi.
    + subst i. specialize (Hch priority). unfold chain in *.
      rewrite Hl in Hch |- *. rewrite <- app_assoc.
      apply lseg_app in Hch as (mid & Hseg0 & Hsegx).
      destruct Hsegx as (-> & ndx' & Hndx' & Hprevx & Hnextx).
      simpl in Hnextx. assert (ndx' = ndx) as -> by congruence.
      apply lseg_app. exists (Some x). split.
      * eapply lseg_frame; [|exact Hseg0]. intros m Hm.
        rewrite lookup_insert_ne, lookup_alter_ne; [done|set_solver|].
        intros ->. apply (Hnotin priority). rewrite Hl. set_solver.
      * simpl. split; [done|]. eexists. split.
        { rewrite lookup_insert_ne, lookup_alter_eq, Hx by done. done. }
        split; [done|]. simpl. split; [done|]. exists node.
        rewrite lookup_insert_eq. split; [done|]. split; [done|].
        simpl. done.
    + eapply lseg_frame; [|apply Hch]. intros m Hm.
      rewrite lookup_insert_ne, lookup_alter_ne; [done| |].
      * intros ->. destruct (Hprio _ _ Hm) as (? & ? & ?). congruence.
      * intros ->. by apply (Hnotin i).
  - intros m nd. destruct (decide (m = n)) as [->|Hmn].
    + rewrite lookup_insert_eq. intros [= <-]. rewrite Hnpr, bucket_set_eq.
      intros []. set_solver.
    + rewrite lookup_insert_ne by done. destruct (decide (m = x)) as [->|Hmx].
      * rewrite lookup_alter_eq, Hx. intros [= <-]. simpl.
        rewrite Hxp, bucket_set_eq. intros []. set_solver.
      * rewrite lookup_alter_ne by done. intros Hm Hout.
        apply (Hdet _ _ Hm). intros Hin. apply Hout.
        unfold bucket_set. case_decide as Hi; [|done].
        rewrite Hi in Hin. set_solver.
Qed.

(** The links after a node becomes the head of an empty bucket. *)
Lemma links_ok_first ns matrix bs priority n node :
  links_ok ns matrix bs →
  (∀ i m, m ∈ bs i → is_Some (ns !! m)) →
  bs priority = [] → ns !! n = None →
  node_prev node = None → node_next node = None →
  node_priority node = priority →
  links_ok (<[n := node]> ns) (array_set matrix priority (Some n))
           (bucket_set bs priority (bs priority ++ [n])).
Proof.
  intros [Hch Hdet] Hprio Hl Hn Hnp Hnn Hnpr.
  assert (Hnotin : ∀ i, n ∉ bs i).
  { intros i Hin. destruct (Hprio _ _ Hin) as (? & ?). congruence. }
  split.
  - intros i. unfold bucket_set. case_decide as Hi.
    + subst i. rewrite array_get_set_eq, Hl. simpl. split; [done|].
      exists node. rewrite lookup_insert_eq. by rewrite Hnn.
    + rewrite array_get_set_ne by done.
      eapply lseg_frame; [|apply Hch]. intros m Hm.
      rewrite lookup_insert_ne; [done|]. intros ->. by apply (Hnotin i).
  - intros m nd. destruct (decide (m = n)) as [->|Hmn].
    + rewrite lookup_insert_eq. intros [= <-]. rewrite Hnpr, bucket_set_eq.
      intros []. set_solver.
    + rewrite lookup_insert_ne by done. intros Hm Hout.
      apply (Hdet _ _ Hm). intros Hin. apply Hout.
      unfold bucket_set. case_decide as Hi; [|done].
      rewrite Hi in Hin. set_solver.
Qed.

Lemma repr_priority ch bs i n :
  repr ch bs → n ∈ bs i →
  ∃ nd, nodes ch !! n = Some nd ∧ node_priority nd = i.
Proof.
  intros [_ H] Hin. destruct (pay_priority _ _ _ _ H _ _ Hin) as (s & Hs).
  apply info_Some in Hs as (nd & ? & _ & ?). eauto.
Qed.

(** [Channel.subscribe] of a function that is not subscribed appends a
    fresh node to the bucket of its priority. *)
Lemma Channel_subscribe_fresh ch bs f priority context :
  repr ch bs → ¬ registered ch bs f →
  ∃ ch', Channel_subscribe P f priority context ch = Some (ch', None) ∧
         repr ch' (bucket_set bs priority (bs priority ++ [allocated ch])) ∧
         _commandMask ch' = _commandMask ch ∧
         _callingNode ch' = _callingNode ch ∧
         namespace ch' = namespace ch ∧
         info (nodes ch') (allocated ch)
           = Some (mkSubscription (hashFn P f) f context, priority).
Proof.
  intros H Hnew. unfold Channel_subscribe. simpl node_id.
  destruct (existsb _ _) eqn:Hex.
  { apply (existsb_holds_fn _ _ _ H) in Hex. done. } clear Hex.
  pose proof H as [HL HP].
  set (n := allocated ch).
  assert (Hfresh : nodes ch !! n = None).
  { destruct (nodes ch !! n) eqn:E; [|done].
    assert (n < allocated ch)%nat.
    { apply (pay_allocated _ _ _ _ HP). unfold info. rewrite E. by eexists. }
    unfold n in *. lia. }
  assert (HP' := payload_ok_subscribe _ _ _ _ f context priority HP).
  assert (Hprio := λ i m, repr_priority ch bs i m H).
  destruct (array_get (_priorityMatrix ch) priority) as [head|] eqn:Hhead.
  - pose proof (links_chain _ _ _ HL priority) as Hch. rewrite Hhead in Hch.
    destruct (last_from_chain _ _ _ _ (S (size (nodes ch))) Hch)
      as (l0 & x & Hl & Hlast).
    { pose proof (NoDup_length_le_size (nodes ch) (bs priority)
        (pay_NoDup _ _ _ _ priority HP)) as Hle.
      etrans; [apply Hle|lia]. intros m Hm.
      destruct (Hprio _ _ Hm) as (? & ? & _). eauto. }
    rewrite Hlast. eexists. split; [done|].
    assert (Hx : x ∈ bs priority) by (rewrite Hl; set_solver).
    destruct (Hprio _ _ Hx) as (ndx & Hndx & Hpx).
    split; [split|]; simpl.
    + eapply links_ok_append; eauto using pay_NoDup.
    + eapply payload_ok_ext; [|apply HP'].
      * intros m. rewrite info_insert. unfold n.
        case_decide; [reflexivity|]. apply info_alter_next.
      * intros m s p Hi Hb Hf. apply Hnew. apply info_Some in Hi
          as (nd & ? & <- & <-). by exists m, nd.
    + split_and!; try done.
      rewrite info_insert, decide_True by done. reflexivity.
  - pose proof (links_chain _ _ _ HL priority) as Hch. rewrite Hhead in Hch.
    apply chain_nil_inv in Hch.
    eexists. split; [done|]. split; [split|]; simpl.
    + eapply links_ok_first; eauto. intros i m Hm.
      destruct (Hprio _ _ Hm) as (? & ? & _). eauto.
    + eapply payload_ok_ext; [|apply HP'].
      * intros m. rewrite info_insert. unfold n.
        case_decide; reflexivity.
      * intros m s p Hi Hb Hf. apply Hnew. apply info_Some in Hi
          as (nd & ? & <- & <-). by exists m, nd.
    + split_and!; try done.
      rewrite info_insert, decide_True by done. reflexivity.
Qed.

(** [Channel.subscribe] of a function that is subscribed throws and
    leaves the channel as it was. *)
Lemma Channel_subscribe_duplicate ch bs f priority context :
  repr ch bs → registered ch bs f →
  Channel_subscribe P f priority context ch
    = Some (ch, Some (DuplicateSubscriber f (namespace ch))).
Proof.
  intros H Hreg. unfold Channel_subscribe.
  apply (existsb_holds_fn _ _ _ H) in Hreg.
  change (node_id (new_DLLNode P f context priority)) with (hashFn P f).
  by rewrite Hreg.
Qed.

(** *** Unsubscribing *)

Lemma find_fn_Some ns f fnArray : ∀ k idx n,
  find_fn ns f fnArray k = Some (idx, n) →
  (k ≤ idx)%nat ∧ fnArray !! (idx - k)%nat = Some n ∧ holds_fn ns f n = true.
Proof.
  induction fnArray as [|m rest IH]; intros k idx n; simpl; [done|].
  destruct (holds_fn ns f m) eqn:Hm.
  - intros [= <- <-]. rewrite Nat.sub_diag. done.
  - intros H. apply IH in H as (Hle & Hl & Hh). split; [lia|]. split; [|done].
    replace (idx - k)%nat with (S (idx - S k)) by lia. done.
Qed.

Lemma find_fn_None ns f fnArray : ∀ k,
  find_fn ns f fnArray k = None → ∀ n, n ∈ fnArray → holds_fn ns f n = false.
Proof.
  induction fnArray as [|m rest IH]; intros k; simpl.
  - intros _ n Hn. by apply elem_of_nil in Hn.
  - destruct (holds_fn ns f m) eqn:Hm; [done|].
    intros H n [->|Hn]%elem_of_cons; [done|]. by eapply IH.
Qed.

(** The store after [node] is taken out, node by node. *)
Definition unlinked (ns ns' : gmap nat DLLNode) (n : nat) (nd : DLLNode)
  : Prop :=
  ∀ k, ns' !! k =
    if decide (k = n)
    then Some (mkNode None None (node_subscription nd) (node_priority nd))
    else if decide (node_prev nd = Some k)
    then set_next (node_next nd) <$> ns !! k
    else if decide (node_next nd = Some k)
    then set_prev (node_prev nd) <$> ns !! k
    else ns !! k.

Lemma unlink_unlinked n nd ch :
  nodes ch !! n = Some nd →
  node_prev nd ≠ Some n → node_next nd ≠ Some n →
  (∀ q, node_prev nd = Some q → node_next nd ≠ Some q) →
  unlinked (nodes ch) (nodes (unlink n nd ch)) n nd.
Proof.
  intros Hn Hp Hx Hpx k. unfold unlink.
  destruct nd as [[q|] [m|] s pr]; simpl in *.
  - assert (q ≠ n) by congruence. assert (m ≠ n) by congruence.
    assert (m ≠ q) by (intros ->; by eapply Hpx).
    repeat case_decide; simplify_eq.
    + rewrite lookup_alter_eq, lookup_alter_eq, !lookup_alter_ne, Hn by done.
      done.
    + rewrite !lookup_alter_ne, lookup_alter_eq by done. done.
    + rewrite !lookup_alter_ne, lookup_alter_eq, lookup_alter_ne by done. done.
    + rewrite !lookup_alter_ne by congruence. done.
  - assert (q ≠ n) by congruence.
    repeat case_decide; simplify_eq.
    + rewrite lookup_alter_eq, lookup_alter_ne, Hn by done. done.
    + rewrite lookup_alter_ne, lookup_alter_eq by done. done.
    + rewrite !lookup_alter_ne by congruence. done.
  - assert (m ≠ n) by congruence.
    repeat case_decide; simplify_eq.
    + rewrite lookup_alter_eq, lookup_alter_ne, Hn by done. done.
    + rewrite lookup_alter_ne, lookup_alter_eq by done. done.
    + rewrite !lookup_alter_ne by congruence. done.
  - repeat case_decide; simplify_eq.
    + rewrite lookup_alter_eq, Hn. done.
    + rewrite lookup_alter_ne by done. done.
Qed.

Lemma unlinked_info ns ns' n nd k :
  unlinked ns ns' n nd → ns !! n = Some nd → info ns' k = info ns k.
Proof.
  intros H Hn. unfold info. rewrite (H k). repeat case_decide.
  - subst. by rewrite Hn.
  - by destruct (ns !! k).
  - by destruct (ns !! k).
  - done.
Qed.

Lemma lseg_node ns p cur l1 n l2 stop nd :
  lseg ns p cur (l1 ++ n :: l2) stop → ns !! n = Some nd →
  node_prev nd = last_or p l1 ∧
  lseg ns p cur l1 (Some n) ∧ lseg ns (Some n) (node_next nd) l2 stop.
Proof.
  intros (mid & H1 & H2)%lseg_app Hn. destruct H2 as (-> & nd' & Hn' & Hp & H2).
  assert (nd' = nd) as -> by congruence. done.
Qed.

(** The segment without [n], in the store without [n]. *)
Lemma lseg_unlinked ns ns' n nd l1 l2 cur :
  unlinked ns ns' n nd → ns !! n = Some nd →
  NoDup (l1 ++ n :: l2) →
  lseg ns None cur (l1 ++ n :: l2) None →
  lseg ns' None (match l1 with [] => node_next nd | _ => cur end)
       (l1 ++ l2) None.
Proof.
  intros Hu Hn Hnd Hseg.
  destruct (lseg_node _ _ _ _ _ _ _ _ Hseg Hn) as (Hprev & HA & HB).
  apply NoDup_app in Hnd as (Hnd1 & Hd & Hnd2).
  apply NoDup_cons in Hnd2 as (Hn2 & Hnd2).
  assert (Hn1 : n ∉ l1) by (intros Hin; apply (Hd _ Hin); set_solver).
  assert (HB' : lseg ns' (node_prev nd) (node_next nd) l2 None).
  { destruct l2 as [|m l2]; simpl in *; [done|].
    destruct HB as (Hnext & ndm & Hm & Hpm & HB). split; [done|].
    assert (m ≠ n) by set_solver.
    assert (node_prev nd ≠ Some m).
    { rewrite Hprev. unfold last_or. destruct (last l1) as [x|] eqn:E; [|done].
      intros [= ->]. apply last_Some_elem_of in E. apply (Hd _ E). set_solver. }
    exists (set_prev (node_prev nd) ndm). split.
    { rewrite (Hu m). rewrite decide_False, decide_False, decide_True by done.
      by rewrite Hm. }
    split; [done|]. simpl. eapply lseg_frame; [|exact HB].
    intros k Hk. rewrite (Hu k).
    apply NoDup_cons in Hnd2 as (Hm2 & _).
    rewrite decide_False by set_solver.
    rewrite decide_False.
    2:{ rewrite Hprev. unfold last_or. destruct (last l1) as [x|] eqn:E; [|done].
        intros [= ->]. apply last_Some_elem_of in E. apply (Hd _ E). set_solver. }
    rewrite decide_False; [done|]. rewrite Hnext. intros [= ->]. done. }
  destruct l1 as [|a l1'] using rev_ind; [simpl in *; by rewrite Hprev in HB'|].
  clear IHl1'.
  assert (Hcur : match l1' ++ [a] with [] => node_next nd | _ :: _ => cur end = cur)
    by (by destruct l1'). rewrite Hcur. clear Hcur.
  unfold last_or in Hprev. rewrite last_snoc in Hprev.
  apply lseg_app in HA as (mid & HA & Ha).
  destruct Ha as (-> & nda & Ha & Hpa & Hna). simpl in Hna.
  apply NoDup_app in Hnd1 as (Hnd1 & Hd1 & _).
  assert (a ≠ n) by set_solver.
  assert (Ha1 : a ∉ l1') by (intros Hin; apply (Hd1 _ Hin); set_solver).
  rewrite <- app_assoc. apply lseg_app. exists (Some a). split.
  - eapply lseg_frame; [|exact HA]. intros k Hk. rewrite (Hu k).
    rewrite decide_False by (intros ->; apply Hn1; set_solver).
    rewrite decide_False by (rewrite Hprev; intros [= ->]; done).
    rewrite decide_False; [done|].
    intros Hnx. destruct l2 as [|m l2]; simpl in HB; [congruence|].
    destruct HB as (Hnext & _). rewrite Hnext in Hnx. simplify_eq.
    apply (Hd k); set_solver.
  - simpl. split; [done|]. exists (set_next (node_next nd) nda). split.
    { rewrite (Hu a). rewrite decide_False, decide_True by done.
      by rewrite Ha. }
    split; [done|]. simpl. rewrite Hprev in HB'. exact HB'.
Qed.

Lemma last_or_None_elem p l x : last_or p l = Some x → p = Some x ∨ x ∈ l.
Proof.
  unfold last_or. destruct (last l) as [y|] eqn:E; [|by left].
  intros [= ->]. right. by apply last_Some_elem_of.
Qed.

Lemma unlink_matrix n nd ch :
  _priorityMatrix (unlink n nd ch) =
  match node_prev nd with
  | Some _ => _priorityMatrix ch
  | None => array_set (_priorityMatrix ch) (node_priority nd) (node_next nd)
  end.
Proof. unfold unlink. by destruct (node_prev nd). Qed.

Lemma links_ok_unlink ch bs n nd l1 l2 :
  links_ok (nodes ch) (_priorityMatrix ch) bs →
  (∀ i m, m ∈ bs i → ∃ nd, nodes ch !! m = Some nd ∧ node_priority nd = i) →
  nodes ch !! n = Some nd →
  bs (node_priority nd) = l1 ++ n :: l2 → NoDup (l1 ++ n :: l2) →
  unlinked (nodes ch) (nodes (unlink n nd ch)) n nd ∧
  links_ok (nodes (unlink n nd ch)) (_priorityMatrix (unlink n nd ch))
           (bucket_set bs (node_priority nd) (l1 ++ l2)).
Proof.
  intros [Hch Hdet] Hprio Hn Hl Hnd.
  set (p := node_priority nd) in *.
  pose proof (Hch p) as Hseg. unfold chain in Hseg. rewrite Hl in Hseg.
  destruct (lseg_node _ _ _ _ _ _ _ _ Hseg Hn) as (Hprev & HA & HB).
  pose proof (lseg_head _ _ _ _ _ HB) as Hnext.
  pose proof Hnd as Hnd'.
  apply NoDup_app in Hnd' as (Hnd1 & Hd & Hnd2).
  apply NoDup_cons in Hnd2 as (Hn2 & Hnd2).
  assert (Hn1 : n ∉ l1) by (intros Hin; apply (Hd _ Hin); set_solver).
  assert (Hpin : ∀ q, node_prev nd = Some q → q ∈ l1).
  { intros q Hq. rewrite Hprev in Hq.
    by apply last_or_None_elem in Hq as [?|?]. }
  assert (Hnin : ∀ m, node_next nd = Some m → m ∈ l2).
  { intros m Hm. rewrite Hnext in Hm. destruct l2; [done|]. set_solver. }
  assert (Hdisj : ∀ i k, k ∈ bs i → k ∈ l1 ++ n :: l2 → i = p).
  { intros i k Hi Hk. rewrite <- Hl in Hk.
    destruct (Hprio _ _ Hi) as (? & ? & ?), (Hprio _ _ Hk) as (? & ? & ?).
    congruence. }
  assert (Hu : unlinked (nodes ch) (nodes (unlink n nd ch)) n nd).
  { apply unlink_unlinked; [done|..].
    - intros Hq. by apply Hpin in Hq.
    - intros Hm. by apply Hnin in Hm.
    - intros q Hq Hm. apply Hpin in Hq. apply Hnin in Hm.
      apply (Hd _ Hq). set_solver. }
  split; [done|]. split.
  - intros i. unfold bucket_set. rewrite unlink_matrix. case_decide as Hi.
    + subst i. pose proof (lseg_unlinked _ _ _ _ _ _ _ Hu Hn Hnd Hseg) as H'.
      unfold chain. destruct l1 as [|a l1'].
      * unfold last_or in Hprev. simpl in Hprev. rewrite Hprev.
        fold p. rewrite array_get_set_eq. exact H'.
      * destruct (node_prev nd) as [q|] eqn:Hq; [exact H'|].
        exfalso. rewrite last_or_cons in Hprev. unfold last_or in Hprev.
        by destruct (last l1').
    + assert (Hmx : array_get (match node_prev nd with
                     | Some _ => _priorityMatrix ch
                     | None => array_set (_priorityMatrix ch) p (node_next nd)
                     end) i = array_get (_priorityMatrix ch) i).
      { destruct (node_prev nd); [done|]. by rewrite array_get_set_ne. }
      fold p. rewrite Hmx. eapply lseg_frame; [|apply Hch]. intros k Hk.
      rewrite (Hu k).
      rewrite decide_False by (intros ->; apply Hi, (Hdisj _ _ Hk); set_solver).
      rewrite decide_False
        by (intros Hq%Hpin; apply Hi, (Hdisj _ _ Hk); set_solver).
      rewrite decide_False
        by (intros Hm%Hnin; apply Hi, (Hdisj _ _ Hk); set_solver).
      done.
  - assert (Hsub : ∀ k i, k ≠ n → k ∈ bs i ↔ k ∈ bucket_set bs p (l1 ++ l2) i).
    { intros k i Hk. unfold bucket_set. case_decide; [subst i|done].
      rewrite Hl. set_solver. }
    intros k ndk. rewrite (Hu k). case_decide as Hkn.
    { intros [= <-]. done. }
    case_decide as Hkp.
    { destruct (nodes ch !! k) as [ndk0|] eqn:Hk; [|done]. intros [= <-].
      simpl. intros Hout. exfalso. apply Hout. apply Hpin in Hkp.
      assert (Hkb : k ∈ bs p) by (rewrite Hl; set_solver).
      destruct (Hprio _ _ Hkb) as (x & Hx & Hxp).
      assert (x = ndk0) as -> by congruence. rewrite Hxp.
      by apply Hsub. }
    case_decide as Hkx.
    { destruct (nodes ch !! k) as [ndk0|] eqn:Hk; [|done]. intros [= <-].
      simpl. intros Hout. exfalso. apply Hout. apply Hnin in Hkx.
      assert (Hkb : k ∈ bs p) by (rewrite Hl; set_solver).
      destruct (Hprio _ _ Hkb) as (x & Hx & Hxp).
      assert (x = ndk0) as -> by congruence. rewrite Hxp.
      by apply Hsub. }
    intros Hk Hout. apply (Hdet _ _ Hk). intros Hin. apply Hout.
    by apply Hsub.
Qed.

Lemma splice1_elem (fnArray : list nat) idx n m :
  NoDup fnArray → fnArray !! idx = Some n →
  m ∈ splice1 idx fnArray ↔ m ∈ fnArray ∧ m ≠ n.
Proof.
  intros Hnd Hidx. unfold splice1.
  pose proof (take_drop_middle _ _ _ Hidx) as Heq.
  assert (Hin : m ∈ fnArray ↔
            m ∈ take idx fnArray ∨ m = n ∨ m ∈ drop (S idx) fnArray).
  { rewrite <- Heq at 1. by rewrite elem_of_app, elem_of_cons. }
  rewrite <- Heq in Hnd.
  apply NoDup_app in Hnd as (_ & Hd & (Hn & _)%NoDup_cons).
  rewrite Hin, elem_of_app. split.
  - intros [H|H]; (split; [tauto|]); intros ->; [|done].
    apply (Hd _ H). set_solver.
  - tauto.
Qed.

Lemma splice1_length (fnArray : list nat) idx n :
  fnArray !! idx = Some n → S (length (splice1 idx fnArray)) = length fnArray.
Proof.
  intros Hidx. rewrite <- (take_drop_middle _ _ _ Hidx) at 2.
  unfold splice1. rewrite !length_app. simpl. lia.
Qed.

Lemma sorted_remove (l1 l2 : list nat) n :
  StronglySorted lt (l1 ++ n :: l2) → StronglySorted lt (l1 ++ l2).
Proof.
  rewrite !StronglySorted_app, StronglySorted_cons.
  intros (H & ? & ? & ?). split; [|done]. intros x y Hx Hy. apply H; set_solver.
Qed.

(** The index and the payload after a node is evicted. *)
Lemma payload_ok_unsubscribe inf fnHashMap alloc bs n s p fnArray idx l1 l2 :
  payload_ok inf fnHashMap alloc bs →
  inf n = Some (s, p) → bs p = l1 ++ n :: l2 →
  fnHashMap !! sub_id s = Some fnArray → fnArray !! idx = Some n →
  payload_ok inf
    (if decide (length fnArray <= 1)%nat then delete (sub_id s) fnHashMap
     else <[sub_id s := splice1 idx fnArray]> fnHashMap)
    alloc (bucket_set bs p (l1 ++ l2)).
Proof.
  intros H Hn Hl Hfa Hidx.
  destruct (pay_index _ _ _ _ H _ _ Hfa) as (Hne & HfaND & Hfaall).
  assert (HND : NoDup (l1 ++ n :: l2)) by (rewrite <- Hl; by eapply pay_NoDup).
  assert (Hnout : ∀ i, n ∉ bucket_set bs p (l1 ++ l2) i).
  { intros i. unfold bucket_set. case_decide.
    - apply NoDup_app in HND as (_ & Hd & (? & _)%NoDup_cons).
      intros [Hi|Hi]%elem_of_app; [|done]. apply (Hd _ Hi). set_solver.
    - intros Hi. assert (i = p); [|done].
      eapply pay_disjoint; [done..|]. rewrite Hl. set_solver. }
  assert (Hsub : ∀ k i, k ∈ bucket_set bs p (l1 ++ l2) i → k ∈ bs i ∧ k ≠ n).
  { intros k i Hk. split; [|intros ->; by apply Hnout in Hk].
    unfold bucket_set in Hk. case_decide; [subst i|done].
    rewrite Hl. set_solver. }
  assert (Hsup : ∀ k i, k ≠ n → k ∈ bs i → k ∈ bucket_set bs p (l1 ++ l2) i).
  { intros k i Hk Hi. unfold bucket_set. case_decide; [subst i|done].
    rewrite Hl in Hi. set_solver. }
  split.
  - intros i. unfold bucket_set. case_decide; [|apply H].
    apply (sorted_remove _ _ n). rewrite <- Hl. apply H.
  - intros i k Hk. apply Hsub in Hk as [Hk _]. by apply (pay_priority _ _ _ _ H).
  - apply H.
  - intros id fa Hlook.
    assert (Hcase : (id = sub_id s ∧ (1 < length fnArray)%nat ∧
                     fa = splice1 idx fnArray) ∨
                    (id ≠ sub_id s ∧ fnHashMap !! id = Some fa)).
    { case_decide.
      - apply lookup_delete_Some in Hlook as [? ?]. right. done.
      - destruct (decide (id = sub_id s)) as [->|].
        + rewrite lookup_insert_eq in Hlook. left. split; [done|].
          split; [lia|congruence].
        + rewrite lookup_insert_ne in Hlook by done. right. done. }
    destruct Hcase as [(-> & Hlen & ->)|(Hid & Hlook')].
    + split.
      { pose proof (splice1_length _ _ _ Hidx). intros E. rewrite E in *.
        simpl in *. lia. }
      split.
      { unfold splice1. rewrite <- (take_drop_middle _ _ _ Hidx) in HfaND.
        apply NoDup_app in HfaND as (? & Hd & (? & ?)%NoDup_cons).
        apply NoDup_app. split; [done|]. split; [|done].
        intros x Hx Hx'. apply (Hd _ Hx). set_solver. }
      intros k Hk. apply (splice1_elem _ _ _ _ HfaND Hidx) in Hk as [Hk Hkn].
      destruct (Hfaall _ Hk) as (s' & p' & ? & ? & ?). exists s', p'.
      split; [done|]. split; [done|]. by apply Hsup.
    + destruct (pay_index _ _ _ _ H _ _ Hlook') as (? & ? & Hall).
      split; [done|]. split; [done|]. intros k Hk.
      destruct (Hall _ Hk) as (s' & p' & Hi & ? & ?). exists s', p'.
      split; [done|]. split; [done|]. apply Hsup; [|done].
      intros ->. congruence.
  - intros k s' p' Hi Hk. apply Hsub in Hk as [Hk Hkn].
    destruct (pay_indexed _ _ _ _ H _ _ _ Hi Hk) as (fa & Hlook & Hin).
    destruct (decide (sub_id s' = sub_id s)) as [E|E].
    + rewrite E in Hlook |- *. assert (fa = fnArray) as -> by congruence.
      assert (n ∈ fnArray) by (by eapply list_elem_of_lookup_2).
      assert (1 < length fnArray)%nat.
      { destruct fnArray as [|a [|b ?]]; simpl; [set_solver|set_solver|lia]. }
      rewrite decide_False by lia. rewrite lookup_insert_eq.
      eexists. split; [done|]. by apply (splice1_elem _ _ _ _ HfaND Hidx).
    + exists fa. split; [|done]. case_decide.
      * by rewrite lookup_delete_ne.
      * by rewrite lookup_insert_ne.
  - apply H.
  - intros k m s1 s2 p1 p2 Hk Hm Hkb Hmb. apply Hsub in Hkb as [? _].
    apply Hsub in Hmb as [? _]. by apply (pay_fn _ _ _ _ H _ _ _ _ _ _ Hk Hm).
Qed.

Lemma repr_registered_find ch bs f n nd :
  repr ch bs → nodes ch !! n = Some nd → n ∈ bs (node_priority nd) →
  node_fn nd = f →
  ∃ fnArray idx, _fnHashMap ch !! hashFn P f = Some fnArray ∧
    find_fn (nodes ch) f fnArray 0 = Some (idx, n) ∧ fnArray !! idx = Some n.
Proof.
  intros [HL HP] Hn Hb Hf.
  assert (Hi : info (nodes ch) n = Some (node_subscription nd, node_priority nd))
    by (apply info_Some; eauto).
  destruct (pay_indexed _ _ _ _ HP _ _ _ Hi Hb) as (fa & Hfa & Hin).
  rewrite (pay_id _ _ _ _ HP _ _ _ Hi) in Hfa. unfold node_fn in Hf.
  rewrite Hf in Hfa. exists fa.
  destruct (find_fn (nodes ch) f fa 0) as [[idx n']|] eqn:Hfind.
  - apply find_fn_Some in Hfind as (_ & Hidx & Hh).
    rewrite Nat.sub_0_r in Hidx. exists idx.
    assert (n' = n) as ->; [|done].
    unfold holds_fn in Hh. destruct (nodes ch !! n') as [nd'|] eqn:Hn'; [|done].
    apply bool_decide_eq_true in Hh.
    destruct (pay_index _ _ _ _ HP _ _ Hfa) as (_ & _ & Hall).
    destruct (Hall n') as (s' & p' & Hi' & _ & Hb');
      [by eapply list_elem_of_lookup_2|].
    eapply (pay_fn _ _ _ _ HP); [exact Hi'|exact Hi|done..|].
    apply info_Some in Hi' as (x & ? & <- & _). simplify_eq. done.
  - exfalso. eapply find_fn_None in Hfind; [|exact Hin].
    unfold holds_fn in Hfind. rewrite Hn in Hfind.
    by rewrite bool_decide_eq_false in Hfind.
Qed.

(** [unsubscribe] of a function that is not subscribed changes nothing
    and returns [false]. *)
Lemma Channel_unsubscribe_absent ch bs self f :
  repr ch bs → ¬ registered ch bs f →
  Channel_unsubscribe P self f ch = (ch, [], false).
Proof.
  intros H Hnot. unfold Channel_unsubscribe.
  destruct (_fnHashMap ch !! hashFn P f) as [fa|] eqn:Hfa; [|done].
  destruct (find_fn (nodes ch) f fa 0) as [[idx n]|] eqn:Hfind; [|done].
  exfalso. apply Hnot. apply find_fn_Some in Hfind as (_ & Hidx & Hh).
  unfold holds_fn in Hh. destruct (nodes ch !! n) as [nd|] eqn:Hn; [|done].
  apply bool_decide_eq_true in Hh. destruct H as [_ HP].
  destruct (pay_index _ _ _ _ HP _ _ Hfa) as (_ & _ & Hall).
  destruct (Hall n) as (s' & p' & Hi' & _ & Hb');
    [by eapply list_elem_of_lookup_2|].
  apply info_Some in Hi' as (x & ? & <- & <-). simplify_eq.
  by exists n, nd.
Qed.

(** [unsubscribe] of the function whose node is being called, on a
    channel that has not been interrupted: nothing changes but the
    timer, and [false] is returned. *)
Lemma Channel_unsubscribe_deferred ch bs self f n nd :
  repr ch bs → nodes ch !! n = Some nd → n ∈ bs (node_priority nd) →
  node_fn nd = f →
  _callingNode ch = Some n → Z.land (_commandMask ch) SIG_INT = 0 →
  Channel_unsubscribe P self f ch = (ch, [TimerUnsubscribe self f], false).
Proof.
  intros H Hn Hb Hf Hcall Hmask.
  destruct (repr_registered_find _ _ _ _ _ H Hn Hb Hf)
    as (fa & idx & Hfa & Hfind & _).
  unfold Channel_unsubscribe. rewrite Hfa, Hfind.
  by rewrite !bool_decide_eq_true_2.
Qed.

(** [unsubscribe] in every other case takes the node out of its bucket
    and returns [true]. *)
Lemma Channel_unsubscribe_evict ch bs self f n nd :
  repr ch bs → nodes ch !! n = Some nd → n ∈ bs (node_priority nd) →
  node_fn nd = f →
  ¬ (_callingNode ch = Some n ∧ Z.land (_commandMask ch) SIG_INT = 0) →
  ∃ ch' l1 l2,
    Channel_unsubscribe P self f ch = (ch', [], true) ∧
    bs (node_priority nd) = l1 ++ n :: l2 ∧
    repr ch' (bucket_set bs (node_priority nd) (l1 ++ l2)) ∧
    nodes ch' !! n
      = Some (mkNode None None (node_subscription nd) (node_priority nd)) ∧
    _commandMask ch' = _commandMask ch ∧
    _callingNode ch' = _callingNode ch ∧
    namespace ch' = namespace ch.
Proof.
  intros H Hn Hb Hf Hnot.
  destruct (repr_registered_find _ _ _ _ _ H Hn Hb Hf)
    as (fa & idx & Hfa & Hfind & Hidx).
  unfold Channel_unsubscribe. rewrite Hfa, Hfind.
  destruct (bool_decide (_callingNode ch = Some n)
            && bool_decide (Z.land (_commandMask ch) SIG_INT = 0)) eqn:Hc.
  { apply andb_true_iff in Hc as [?%bool_decide_eq_true ?%bool_decide_eq_true].
    by destruct Hnot. }
  rewrite Hn. destruct (list_elem_of_split _ _ Hb) as (l1 & l2 & Hl).
  destruct H as [HL HP].
  assert (HND : NoDup (l1 ++ n :: l2)) by (rewrite <- Hl; by eapply pay_NoDup).
  assert (Hprio : ∀ i m, m ∈ bs i →
            ∃ nd, nodes ch !! m = Some nd ∧ node_priority nd = i).
  { intros i m Hm. destruct (pay_priority _ _ _ _ HP _ _ Hm) as (s & Hs).
    apply info_Some in Hs as (x & ? & _ & ?). eauto. }
  destruct (links_ok_unlink _ _ _ _ _ _ HL Hprio Hn Hl HND) as [Hu HL'].
  assert (Hi : info (nodes ch) n = Some (node_subscription nd, node_priority nd))
    by (apply info_Some; eauto).
  assert (Hid : hashFn P f = sub_id (node_subscription nd)).
  { rewrite (pay_id _ _ _ _ HP _ _ _ Hi). by rewrite <- Hf. }
  eexists _, l1, l2. split; [done|]. split; [done|].
  assert (Hfields : _fnHashMap (unlink n nd ch) = _fnHashMap ch ∧
                    allocated (unlink n nd ch) = allocated ch ∧
                    _commandMask (unlink n nd ch) = _commandMask ch ∧
                    _callingNode (unlink n nd ch) = _callingNode ch ∧
                    namespace (unlink n nd ch) = namespace ch).
  { unfold unlink. by destruct (node_prev nd). }
  destruct Hfields as (Hf1 & Hf2 & Hf3 & Hf4 & Hf5).
  split; [split|]; simpl.
  - exact HL'.
  - rewrite Hf1, Hf2, Hid. eapply payload_ok_ext.
    { intros k. by apply (unlinked_info _ _ _ _ _ Hu). }
    eapply payload_ok_unsubscribe; eauto. by rewrite <- Hid.
  - split_and!; try done. rewrite (Hu n). by rewrite decide_True.
Qed.

End Repr.

(** ** The registry *)

Section Registry.

Variable P : Program.

(** Every channel object has well-formed buckets, and every name of
    the registry leads to a channel object. *)
Definition wf_world (w : World) : Prop :=
  (∀ c ch, heap w !! c = Some ch → ∃ bs, repr P ch bs) ∧
  (∀ name c, _channels w !! name = Some c → is_Some (heap w !! c)).

Lemma wf_new_PubSub : wf_world new_PubSub.
Proof. split; intros ? ? H; simpl in H; by rewrite lookup_empty in H. Qed.

Lemma registered_dec ch bs f :
  repr P ch bs → registered ch bs f ∨ ¬ registered ch bs f.
Proof.
  intros H. rewrite <- (existsb_holds_fn P ch bs f H).
  destruct (existsb _ _); [by left|by right].
Qed.


Lemma repr_set_callingNode ch bs n :
  repr P ch bs → repr P (set_callingNode n ch) bs.
Proof. done. Qed.

Lemma wf_set_channel w c ch bs :
  wf_world w → repr P ch bs → wf_world (set_channel c ch w).
Proof.
  intros [H1 H2] Hr. split; simpl.
  - intros c' ch'. destruct (decide (c = c')) as [->|].
    + rewrite lookup_insert_eq. intros [= <-]. eauto.
    + rewrite lookup_insert_ne by done. apply H1.
  - intros name c' Hc'. apply lookup_insert_is_Some'. right. eauto.
Qed.

Lemma wf_setTimeout w ts : wf_world w → wf_world (setTimeout ts w).
Proof. done. Qed.

Lemma wf_console_error w e : wf_world w → wf_world (console_error e w).
Proof. done. Qed.

Lemma wf_record_call w e : wf_world w → wf_world (record_call e w).
Proof. done. Qed.

Lemma wf_stopPropagation w c : wf_world w → wf_world (stopPropagation c w).
Proof.
  intros H. unfold stopPropagation. destruct (heap w !! c) as [ch|] eqn:E; [|done].
  destruct (proj1 H _ _ E) as [bs Hbs]. by eapply wf_set_channel.
Qed.

(** [PubSub.subscribe] in a well-formed world returns or throws, and
    leaves a well-formed world. *)
Lemma PubSub_subscribe_wf channelName f priority context w :
  wf_world w →
  ∃ w' r, PubSub_subscribe P channelName f priority context w = Some (w', r) ∧
          wf_world w'.
Proof.
  intros Hwf. unfold PubSub_subscribe.
  set (w1 := match _channels w !! channelName with
             | Some _ => w
             | None => _
             end).
  assert (Hw1 : wf_world w1 ∧ ∃ c ch, _channels w1 !! channelName = Some c ∧
                  heap w1 !! c = Some ch).
  { unfold w1. destruct (_channels w !! channelName) as [c|] eqn:Hc.
    - split; [done|]. destruct (proj2 Hwf _ _ Hc) as [ch Hch]. eauto.
    - set (c := fresh (dom (heap w))).
      assert (heap w !! c = None) by apply not_elem_of_dom, is_fresh.
      split.
      + destruct (wf_set_channel w c _ _ Hwf (repr_new P channelName))
          as [H1 H2]. split; [done|]. simpl. intros name c'.
        destruct (decide (channelName = name)) as [->|].
        * rewrite lookup_insert_eq. intros [= <-].
          rewrite lookup_insert_eq. eauto.
        * rewrite lookup_insert_ne by done. apply H2.
      + exists c, (new_Channel channelName). simpl.
        by rewrite !lookup_insert_eq. }
  destruct Hw1 as [Hwf1 (c & ch & Hc & Hch)]. rewrite Hc. simpl.
  rewrite Hch. simpl. destruct (proj1 Hwf1 _ _ Hch) as [bs Hbs].
  destruct (registered_dec ch bs f Hbs) as [Hreg|Hnew].
  - rewrite (Channel_subscribe_duplicate P ch bs f _ _ Hbs Hreg). simpl. eauto.
  - destruct (Channel_subscribe_fresh P ch bs f (resolve_priority priority)
                context Hbs Hnew) as (ch' & -> & Hr' & _). simpl.
    eexists _, _. split; [done|]. by eapply wf_set_channel.
Qed.

Lemma Channel_unsubscribe_repr ch bs self f :
  repr P ch bs →
  ∃ bs', repr P (Channel_unsubscribe P self f ch).1.1 bs'.
Proof.
  intros H. destruct (registered_dec ch bs f H) as [(n & nd & Hn & Hb & Hf)|Hnew].
  - destruct (decide (_callingNode ch = Some n ∧
                      Z.land (_commandMask ch) SIG_INT = 0)) as [[? ?]|Hnot].
    + rewrite (Channel_unsubscribe_deferred P ch bs self f n nd); eauto.
    + destruct (Channel_unsubscribe_evict P ch bs self f n nd H Hn Hb Hf Hnot)
        as (ch' & l1 & l2 & -> & _ & Hr & _). eauto.
  - rewrite (Channel_unsubscribe_absent P ch bs self f); eauto.
Qed.

Lemma PubSub_unsubscribe_wf channelName f w :
  wf_world w → wf_world (PubSub_unsubscribe P channelName f w).1.
Proof.
  intros Hwf. unfold PubSub_unsubscribe.
  destruct (_channels w !! channelName) as [c|] eqn:Hc; [|done].
  destruct (heap w !! c) as [ch|] eqn:Hch; [|done].
  destruct (proj1 Hwf _ _ Hch) as [bs Hbs].
  destruct (Channel_unsubscribe_repr ch bs c f Hbs) as [bs' Hbs'].
  destruct (Channel_unsubscribe P c f ch) as [[ch' ts] b]. simpl in Hbs'.
  assert (Hwf' : wf_world (setTimeout ts (set_channel c ch' w)))
    by (by eapply wf_setTimeout, wf_set_channel).
  destruct (b && negb (hasSubscribers ch')); [|done]. simpl.
  destruct Hwf' as [H1 H2]. split; [done|]. simpl. intros name c'.
  intros [_ H]%lookup_delete_Some. by apply H2 in H.
Qed.

(** Whatever client code does, and however deep the calls nest, the
    world stays well formed. *)
Lemma exec_wf fuel :
  (∀ p w w' r, wf_world w → exec P fuel p w = Some (w', r) → wf_world w') ∧
  (∀ name args w w', wf_world w →
     PubSub_publish P fuel name args w = Some w' → wf_world w') ∧
  (∀ c args w w', wf_world w →
     Channel_publish P fuel c args w = Some w' → wf_world w') ∧
  (∀ c idx args w w', wf_world w →
     for_loop P fuel c idx args w = Some w' → wf_world w') ∧
  (∀ c idx node args w w', wf_world w →
     while_loop P fuel c idx node args w = Some w' → wf_world w').
Proof.
  induction fuel as [|fuel (IHe & IHp & IHc & IHf & IHw)];
    [by repeat split|].
  split_and!.
  - intros p w w' r Hwf. rewrite exec_unfold. destruct p.
    + by intros [= <- <-].
    + by intros [= <- <-].
    + destruct (PubSub_subscribe_wf channelName f priority context w Hwf)
        as (w1 & r1 & -> & Hwf1). eauto.
    + pose proof (PubSub_unsubscribe_wf channelName f w Hwf) as Hwf1.
      destruct (PubSub_unsubscribe P channelName f w) as [w1 b]. eauto.
    + destruct (PubSub_publish P fuel channelName args w) as [w1|] eqn:E;
        [|done]. eauto.
    + apply IHe. by apply wf_stopPropagation.
  - intros name args w w' Hwf. rewrite PubSub_publish_unfold.
    destruct (_channels w !! name); [eauto|]. by intros [= <-].
  - intros c args w w' Hwf. rewrite Channel_publish_unfold.
    destruct (heap w !! c) as [ch|] eqn:Hch; [|done]. simpl.
    destruct (proj1 Hwf _ _ Hch) as [bs Hbs].
    case_bool_decide; [by intros [= <-]|].
    apply IHf. by eapply wf_set_channel.
  - intros c idx args w w' Hwf. rewrite for_loop_unfold.
    destruct (heap w !! c) as [ch|] eqn:Hch; [|done]. simpl.
    destruct (proj1 Hwf _ _ Hch) as [bs Hbs].
    case_bool_decide; [eauto|]. intros [= <-]. by eapply wf_set_channel.
  - intros c idx node args w w' Hwf. rewrite while_loop_unfold.
    destruct node as [n|]; [|eauto].
    destruct (heap w !! c) as [ch|] eqn:Hch; [|done]. simpl.
    destruct (proj1 Hwf _ _ Hch) as [bs Hbs].
    case_bool_decide; [intros [= <-]; by eapply wf_set_channel|].
    destruct (nodes ch !! n) as [nd|] eqn:Hn; [|done]. simpl.
    destruct (exec P fuel _ _) as [[w3 r]|] eqn:He; [|done]. simpl.
    apply IHe in He; [|by eapply wf_record_call, wf_set_channel].
    set (w4 := match r with Some err => _ | None => w3 end).
    assert (Hwf4 : wf_world w4) by (unfold w4; by destruct r).
    destruct (heap w4 !! c) as [ch4|] eqn:Hch4; [|done]. simpl.
    destruct (nodes ch4 !! n) as [nd4|] eqn:Hn4; [|done]. simpl.
    destruct (proj1 Hwf4 _ _ Hch4) as [bs4 Hbs4].
    apply IHw. by eapply wf_set_channel.
Qed.

End Registry.

(** ** Fuel *)

Section Fuel.

Variable P : Program.

(** A result obtained with some fuel is obtained with more. *)
Lemma fuel_S fuel :
  (∀ p w r, exec P fuel p w = Some r → exec P (S fuel) p w = Some r) ∧
  (∀ name args w r, PubSub_publish P fuel name args w = Some r →
     PubSub_publish P (S fuel) name args w = Some r) ∧
  (∀ c args w r, Channel_publish P fuel c args w = Some r →
     Channel_publish P (S fuel) c args w = Some r) ∧
  (∀ c idx args w r, for_loop P fuel c idx args w = Some r →
     for_loop P (S fuel) c idx args w = Some r) ∧
  (∀ c idx node args w r, while_loop P fuel c idx node args w = Some r →
     while_loop P (S fuel) c idx node args w = Some r).
Proof.
  induction fuel as [|fuel (IHe & IHp & IHc & IHf & IHw)];
    [by repeat split|].
  split_and!.
  - intros p w r. rewrite (exec_unfold P (S fuel)), (exec_unfold P fuel).
    destruct p; try done.
    + destruct (PubSub_subscribe P _ _ _ _ w) as [[w1 r1]|]; [|done].
      apply IHe.
    + destruct (PubSub_unsubscribe P _ _ w) as [w1 b]. apply IHe.
    + destruct (PubSub_publish P fuel _ _ w) as [w1|] eqn:E; [|done].
      rewrite (IHp _ _ _ _ E). apply IHe.
    + apply IHe.
  - intros name args w r.
    rewrite (PubSub_publish_unfold P (S fuel)), (PubSub_publish_unfold P fuel).
    destruct (_channels w !! name); [|done]. apply IHc.
  - intros c args w r.
    rewrite (Channel_publish_unfold P (S fuel)), (Channel_publish_unfold P fuel).
    destruct (heap w !! c) as [ch|]; [|done]. simpl.
    case_bool_decide; [done|]. apply IHf.
  - intros c idx args w r.
    rewrite (for_loop_unfold P (S fuel)), (for_loop_unfold P fuel).
    destruct (heap w !! c) as [ch|]; [|done].
    simpl. case_bool_decide; [|done]. apply IHw.
  - intros c idx node args w r.
    rewrite (while_loop_unfold P (S fuel)), (while_loop_unfold P fuel).
    destruct node as [n|]; [|apply IHf].
    destruct (heap w !! c) as [ch|]; [|done]. simpl.
    case_bool_decide; [done|].
    destruct (nodes ch !! n) as [nd|]; [|done]. simpl.
    destruct (exec P fuel _ _) as [[w3 r3]|] eqn:E; [|done].
    rewrite (IHe _ _ _ E). simpl.
    destruct (heap _ !! c) as [ch4|]; [|done]. simpl.
    destruct (nodes ch4 !! n) as [nd4|]; [|done]. simpl.
    apply IHw.
Qed.



Lemma Channel_publish_fuel_le fuel fuel' c args w r :
  (fuel ≤ fuel')%nat → Channel_publish P fuel c args w = Some r →
  Channel_publish P fuel' c args w = Some r.
Proof. induction 1; [done|]. intros. by apply fuel_S, IHle. Qed.

Lemma for_loop_fuel_le fuel fuel' c idx args w r :
  (fuel ≤ fuel')%nat → for_loop P fuel c idx args w = Some r →
  for_loop P fuel' c idx args w = Some r.
Proof. induction 1; [done|]. intros. by apply fuel_S, IHle. Qed.


End Fuel.

(** ** A channel that is publishing *)

Definition publishing (c : nat) (w : World) : Prop :=
  ∃ ch, heap w !! c = Some ch ∧ Z.land (_commandMask ch) PUBLISHING ≠ 0.

Definition interrupted (c : nat) (w : World) : Prop :=
  ∃ ch, heap w !! c = Some ch ∧ Z.land (_commandMask ch) SIG_INT ≠ 0.

(** The calls made to the handlers of one channel object. *)
Definition calls_on (c : nat) (w : World) : list call :=
  filter (λ x, call_channel x = c) (calls w).

(** [keeps c w w']: from [w] to [w'] no handler of [c] was called, the
    [PUBLISHING] bit of [c] is the same, and its [SIG_INT] bit was not
    cleared. *)
Definition keeps (c : nat) (w w' : World) : Prop :=
  (∀ ch, heap w !! c = Some ch →
     ∃ ch', heap w' !! c = Some ch' ∧
       Z.land (_commandMask ch') PUBLISHING = Z.land (_commandMask ch) PUBLISHING ∧
       (Z.land (_commandMask ch) SIG_INT ≠ 0 →
        Z.land (_commandMask ch') SIG_INT ≠ 0)) ∧
  calls_on c w' = calls_on c w.

Lemma land_lor_SIG_INT_PUBLISHING m :
  Z.land (Z.lor m SIG_INT) PUBLISHING = Z.land m PUBLISHING.
Proof. rewrite Z.land_lor_distr_l. simpl. apply Z.lor_0_r. Qed.

Lemma land_lor_PUBLISHING_SIG_INT m :
  Z.land (Z.lor m PUBLISHING) SIG_INT = Z.land m SIG_INT.
Proof. rewrite Z.land_lor_distr_l. simpl. apply Z.lor_0_r. Qed.

Lemma land_lor_SIG_INT m : Z.land (Z.lor m SIG_INT) SIG_INT ≠ 0.
Proof.
  rewrite Z.land_lor_distr_l. simpl. intros H.
  apply Z.lor_eq_0_iff in H as [_ H]. discriminate.
Qed.

Lemma land_lor_PUBLISHING m : Z.land (Z.lor m PUBLISHING) PUBLISHING ≠ 0.
Proof.
  rewrite Z.land_lor_distr_l. simpl. intros H.
  apply Z.lor_eq_0_iff in H as [_ H]. discriminate.
Qed.

Section Keeps.

Variable P : Program.

Lemma keeps_refl c w : keeps c w w.
Proof. split; [|done]. intros ch H. exists ch. done. Qed.

Lemma keeps_trans c w1 w2 w3 : keeps c w1 w2 → keeps c w2 w3 → keeps c w1 w3.
Proof.
  intros [H1 E1] [H2 E2]. split; [|congruence].
  intros ch Hch. destruct (H1 _ Hch) as (ch2 & Hch2 & Hp2 & Hi2).
  destruct (H2 _ Hch2) as (ch3 & Hch3 & Hp3 & Hi3).
  exists ch3. split; [done|]. split; [congruence|tauto].
Qed.

Lemma keeps_publishing c w w' : keeps c w w' → publishing c w → publishing c w'.
Proof.
  intros [H _] (ch & Hch & Hp). destruct (H _ Hch) as (ch' & ? & E & _).
  exists ch'. split; [done|]. congruence.
Qed.


(** Replacing a channel object by one with the same mask. *)
Lemma keeps_set_channel c c0 ch0 ch0' w :
  heap w !! c0 = Some ch0 → _commandMask ch0' = _commandMask ch0 →
  keeps c w (set_channel c0 ch0' w).
Proof.
  intros H0 Hm. split; [|done]. intros ch Hch. simpl.
  destruct (decide (c0 = c)) as [->|].
  - rewrite lookup_insert_eq. exists ch0'. split; [done|].
    assert (ch0 = ch) as -> by congruence. by rewrite Hm.
  - rewrite lookup_insert_ne by done. eauto.
Qed.

(** Any update of another channel object. *)
Lemma keeps_set_other c c0 ch0 w : c0 ≠ c → keeps c w (set_channel c0 ch0 w).
Proof.
  intros Hne. split; [|done]. intros ch Hch. simpl.
  rewrite lookup_insert_ne by done. eauto.
Qed.

Lemma keeps_record_call c x w :
  call_channel x ≠ c → keeps c w (record_call x w).
Proof.
  intros Hne. split; [by eauto|]. unfold calls_on. simpl.
  rewrite filter_app. rewrite (filter_cons_False _ x) by done.
  rewrite filter_nil. by rewrite app_nil_r.
Qed.

Lemma keeps_stopPropagation c c0 w : keeps c w (stopPropagation c0 w).
Proof.
  unfold stopPropagation. destruct (heap w !! c0) as [ch0|] eqn:H0;
    [|apply keeps_refl].
  split; [|done]. intros ch Hch. simpl.
  destruct (decide (c0 = c)) as [->|].
  - rewrite lookup_insert_eq. eexists. split; [done|]. simpl.
    assert (ch0 = ch) as -> by congruence.
    split; [apply land_lor_SIG_INT_PUBLISHING|]. intros _.
    apply land_lor_SIG_INT.
  - rewrite lookup_insert_ne by done. eauto.
Qed.

Lemma Channel_subscribe_mask f priority context ch ch' r :
  Channel_subscribe P f priority context ch = Some (ch', r) →
  _commandMask ch' = _commandMask ch.
Proof.
  unfold Channel_subscribe. destruct (existsb _ _); [by intros [= <- <-]|].
  destruct (array_get _ _); [|by intros [= <- <-]].
  destruct (last_from _ _ _); [|done]. by intros [= <- <-].
Qed.

Lemma unlink_mask n nd ch : _commandMask (unlink n nd ch) = _commandMask ch.
Proof. unfold unlink. by destruct (node_prev nd). Qed.

Lemma Channel_unsubscribe_mask self f ch :
  _commandMask (Channel_unsubscribe P self f ch).1.1 = _commandMask ch.
Proof.
  unfold Channel_unsubscribe. destruct (_fnHashMap ch !! _); [|done].
  destruct (find_fn _ _ _ _) as [[idx n]|]; [|done].
  destruct (_ && _); [done|]. simpl.
  destruct (nodes ch !! n); [|done]. apply unlink_mask.
Qed.

Lemma PubSub_subscribe_keeps c channelName f priority context w w' r :
  PubSub_subscribe P channelName f priority context w = Some (w', r) →
  keeps c w w'.
Proof.
  unfold PubSub_subscribe.
  set (w1 := match _channels w !! channelName with
             | Some _ => w
             | None => _
             end).
  assert (Hw1 : keeps c w w1).
  { unfold w1. destruct (_channels w !! channelName); [apply keeps_refl|].
    split; [|done]. intros ch Hch. simpl. rewrite lookup_insert_ne; [eauto|].
    intros E. assert (fresh (dom (heap w)) ∉ dom (heap w)) as Hf
      by apply is_fresh. apply Hf. rewrite E. apply elem_of_dom. eauto. }
  destruct (_channels w1 !! channelName) as [c0|]; [|done]. simpl.
  destruct (heap w1 !! c0) as [ch0|] eqn:H0; [|done]. simpl.
  destruct (Channel_subscribe _ _ _ _ _) as [[ch0' [e|]]|] eqn:Hs; [| |done];
    simpl; intros [= <- <-]; [done|].
  eapply keeps_trans; [exact Hw1|]. eapply keeps_set_channel; [done|].
  by eapply Channel_subscribe_mask.
Qed.

Lemma PubSub_unsubscribe_keeps c channelName f w :
  keeps c w (PubSub_unsubscribe P channelName f w).1.
Proof.
  unfold PubSub_unsubscribe.
  destruct (_channels w !! channelName) as [c0|]; [|apply keeps_refl].
  destruct (heap w !! c0) as [ch0|] eqn:H0; [|apply keeps_refl].
  pose proof (Channel_unsubscribe_mask c0 f ch0) as Hm.
  destruct (Channel_unsubscribe P c0 f ch0) as [[ch0' ts] b]. simpl in Hm.
  pose proof (keeps_set_channel c c0 ch0 ch0' w H0 Hm) as Hk.
  by destruct (b && negb (hasSubscribers ch0')).
Qed.

(** While [c] is publishing, nothing that client code does, however
    deep the calls nest, calls a handler of [c], ends its publish or
    clears its interrupt. *)
Lemma exec_keeps c fuel :
  (∀ p w w' r, publishing c w → exec P fuel p w = Some (w', r) →
     keeps c w w') ∧
  (∀ name args w w', publishing c w →
     PubSub_publish P fuel name args w = Some w' → keeps c w w') ∧
  (∀ c0 args w w', publishing c w →
     Channel_publish P fuel c0 args w = Some w' → keeps c w w') ∧
  (∀ c0 idx args w w', c0 ≠ c → publishing c w →
     for_loop P fuel c0 idx args w = Some w' → keeps c w w') ∧
  (∀ c0 idx node args w w', c0 ≠ c → publishing c w →
     while_loop P fuel c0 idx node args w = Some w' → keeps c w w').
Proof.
  induction fuel as [|fuel (IHe & IHp & IHc & IHf & IHw)];
    [by repeat split|].
  split_and!.
  - intros p w w' r Hpub. rewrite exec_unfold. destruct p.
    + intros [= <- <-]. apply keeps_refl.
    + intros [= <- <-]. apply keeps_refl.
    + destruct (PubSub_subscribe P _ _ _ _ w) as [[w1 r1]|] eqn:E; [|done].
      intros He. pose proof (PubSub_subscribe_keeps c _ _ _ _ _ _ _ E) as Hk.
      eapply keeps_trans; [exact Hk|]. eapply IHe; [|exact He].
      by eapply keeps_publishing.
    + pose proof (PubSub_unsubscribe_keeps c channelName f w) as Hk.
      destruct (PubSub_unsubscribe P channelName f w) as [w1 b]. intros He.
      eapply keeps_trans; [exact Hk|]. eapply IHe; [|exact He].
      by eapply keeps_publishing.
    + destruct (PubSub_publish P fuel channelName args w) as [w1|] eqn:E;
        [|done]. intros He. pose proof (IHp _ _ _ _ Hpub E) as Hk.
      eapply keeps_trans; [exact Hk|]. eapply IHe; [|exact He].
      by eapply keeps_publishing.
    + intros He. pose proof (keeps_stopPropagation c channel w) as Hk.
      eapply keeps_trans; [exact Hk|]. eapply IHe; [|exact He].
      by eapply keeps_publishing.
  - intros name args w w' Hpub. rewrite PubSub_publish_unfold.
    destruct (_channels w !! name); [eauto|]. intros [= <-]. apply keeps_refl.
  - intros c0 args w w' Hpub. rewrite Channel_publish_unfold.
    destruct (heap w !! c0) as [ch0|] eqn:H0; [|done]. simpl.
    case_bool_decide as Hb; [intros [= <-]; by split; eauto|].
    assert (c0 ≠ c).
    { intros ->. destruct Hpub as (ch & Hch & Hp). rewrite H0 in Hch.
      injection Hch as ->. by apply Hp. }
    intros Hf. eapply keeps_trans; [by apply (keeps_set_other c c0)|].
    eapply IHf; [done| |exact Hf].
    eapply keeps_publishing; [|done]. by apply keeps_set_other.
  - intros c0 idx args w w' Hne Hpub. rewrite for_loop_unfold.
    destruct (heap w !! c0) as [ch0|] eqn:H0; [|done]. simpl.
    case_bool_decide; [eauto|]. intros [= <-]. by apply keeps_set_other.
  - intros c0 idx node args w w' Hne Hpub. rewrite while_loop_unfold.
    destruct node as [n|]; [|eauto].
    destruct (heap w !! c0) as [ch0|] eqn:H0; [|done]. simpl.
    case_bool_decide; [intros [= <-]; by apply keeps_set_other|].
    destruct (nodes ch0 !! n) as [nd|] eqn:Hn; [|done]. simpl.
    destruct (exec P fuel _ _) as [[w3 r]|] eqn:He; [|done]. simpl.
    set (w2 := record_call _ _) in He.
    assert (Hk2 : keeps c w w2).
    { eapply keeps_trans; [by apply (keeps_set_other c c0)|].
      by apply keeps_record_call. }
    apply IHe in He; [|by eapply keeps_publishing].
    set (w4 := match r with Some err => _ | None => w3 end).
    assert (Hk4 : keeps c w3 w4) by (unfold w4; destruct r; by split; eauto).
    destruct (heap w4 !! c0) as [ch4|] eqn:Hch4; [|done]. simpl.
    destruct (nodes ch4 !! n) as [nd4|] eqn:Hn4; [|done]. simpl.
    intros Hw.
    assert (Hk : keeps c w (set_channel c0 (set_callingNode None ch4) w4)).
    { eapply keeps_trans; [exact Hk2|]. eapply keeps_trans; [exact He|].
      eapply keeps_trans; [exact Hk4|]. by apply keeps_set_other. }
    eapply keeps_trans; [exact Hk|]. eapply IHw; [done| |exact Hw].
    by eapply keeps_publishing.
Qed.

End Keeps.

(** ** The end of a publish *)

Section Ending.

Variable P : Program.

(** The channel as [publish] leaves it: [_commandMask &= CLEAR_BITS]. *)
Definition cleared (c : nat) (ch : Channel) (w : World) : World :=
  set_channel c (set_commandMask (Z.land (_commandMask ch) CLEAR_BITS) ch) w.

(** With [SIG_INT] set, the loops call nothing more: they get to the
    next node, if there is one, and return. *)
Lemma for_loop_interrupted c args w ch :
  heap w !! c = Some ch → Z.land (_commandMask ch) SIG_INT ≠ 0 →
  ∀ d idx, (length (_priorityMatrix ch) - idx = d)%nat →
    for_loop P (2 * d + 1) c idx args w = Some (cleared c ch w).
Proof.
  intros Hch Hint. induction d as [|d IH]; intros idx Hd.
  - simpl. rewrite for_loop_unfold, Hch. simpl.
    rewrite bool_decide_eq_false_2 by lia. done.
  - replace (2 * S d + 1)%nat with (S (S (2 * d + 1))) by lia.
    rewrite for_loop_unfold, Hch. simpl.
    rewrite bool_decide_eq_true_2 by lia.
    rewrite while_loop_unfold.
    destruct (array_get (_priorityMatrix ch) idx) as [n|].
    + rewrite Hch. simpl. by rewrite bool_decide_eq_true_2.
    + apply IH. lia.
Qed.



End Ending.

(** ** The links, node by node *)

(** [node.prev.next == node] and [node.next.prev == node] whenever those
    neighbours exist. *)
Definition neighbours_agree (ns : gmap nat DLLNode) : Prop :=
  ∀ n nd, ns !! n = Some nd →
    (∀ p, node_prev nd = Some p →
       ∃ pd, ns !! p = Some pd ∧ node_next pd = Some n) ∧
    (∀ m, node_next nd = Some m →
       ∃ md, ns !! m = Some md ∧ node_prev md = Some n).

(** [n] is a node of bucket [i]: it is reached from the head
    [_priorityMatrix[i]] along the [next] links. *)
Definition in_bucket (ch : Channel) (i n : nat) : Prop :=
  ∃ l, chain (nodes ch) (array_get (_priorityMatrix ch) i) l ∧ n ∈ l.

(** The invariant of the doubly linked buckets. *)
Definition dll_invariant (ch : Channel) : Prop :=
  neighbours_agree (nodes ch) ∧
  ∀ n nd, nodes ch !! n = Some nd → (∀ i, ¬ in_bucket ch i n) →
    node_prev nd = None ∧ node_next nd = None.

(** [fn] is subscribed to the channel: a node of one of its buckets holds
    it. *)
Definition subscribed_fn (ch : Channel) (f : Function) : Prop :=
  ∃ i n nd, in_bucket ch i n ∧ nodes ch !! n = Some nd ∧ node_fn nd = f.

(** The nodes of bucket [i], from the head on. *)
Definition bucket_nodes (ch : Channel) (i : nat) (l : list nat) : Prop :=
  chain (nodes ch) (array_get (_priorityMatrix ch) i) l.

Lemma lseg_inj ns l : ∀ l' p p' cur,
  lseg ns p cur l None → lseg ns p' cur l' None → l = l'.
Proof.
  induction l as [|n l IH]; intros l' p p' cur; simpl.
  - intros ->. by destruct l' as [|? ?]; [|intros (? & _)].
  - intros (-> & nd & Hn & _ & H). destruct l' as [|n' l']; simpl; [done|].
    intros ([= <-] & nd' & Hn' & _ & H'). assert (nd' = nd) as -> by congruence.
    f_equal. eauto.
Qed.

Lemma lseg_neighbours ns l p cur n nd :
  lseg ns p cur l None → n ∈ l → ns !! n = Some nd →
  (∀ q, node_prev nd = Some q → p = Some q ∨
     ∃ qd, ns !! q = Some qd ∧ node_next qd = Some n) ∧
  (∀ m, node_next nd = Some m →
     ∃ md, ns !! m = Some md ∧ node_prev md = Some n).
Proof.
  intros Hseg (l1 & l2 & ->)%list_elem_of_split Hn.
  destruct (lseg_node _ _ _ _ _ _ _ _ Hseg Hn) as (Hprev & HA & HB). split.
  - intros q Hq. rewrite Hq in Hprev.
    destruct l1 as [|a l1'] using rev_ind; [by left|]. right.
    unfold last_or in Hprev. rewrite last_snoc in Hprev. injection Hprev as ->.
    apply lseg_app in HA as (mid & _ & (-> & qd & ? & _ & Hnext)).
    simpl in Hnext. eauto.
  - intros m Hm. rewrite Hm in HB. destruct l2 as [|m' l2]; simpl in HB; [done|].
    destruct HB as ([= <-] & md & ? & ? & _). eauto.
Qed.

Lemma repr_dll_invariant P ch bs : repr P ch bs → dll_invariant ch.
Proof.
  intros [HL HP]. split.
  - intros n nd Hn.
    destruct (decide (n ∈ bs (node_priority nd))) as [Hin|Hout].
    + destruct (lseg_neighbours _ _ _ _ _ _ (links_chain _ _ _ HL _) Hin Hn)
        as [H1 H2]. split; [|done]. intros q Hq.
      by destruct (H1 _ Hq) as [?|?].
    + destruct (links_detached _ _ _ HL _ _ Hn Hout) as [-> ->]. done.
  - intros n nd Hn Hout. apply (links_detached _ _ _ HL _ _ Hn).
    intros Hin. apply (Hout (node_priority nd)). exists (bs (node_priority nd)).
    split; [apply HL|done].
Qed.

(** The nodes of a bucket, as the links give them, are the nodes of the
    representation. *)
Lemma repr_in_bucket P ch bs i n : repr P ch bs → in_bucket ch i n ↔ n ∈ bs i.
Proof.
  intros [HL HP]. split.
  - intros (l & Hl & Hin).
    by rewrite (lseg_inj _ _ _ _ _ _ (links_chain _ _ _ HL i) Hl).
  - intros Hin. exists (bs i). split; [apply HL|done].
Qed.

(** ** Publishing to handlers that only return or throw *)


Section Passive.

Variable P : Program.






Variables (c : nat) (args : list value) (ch : Channel).






End Passive.


(** ** Nodes stay *)


Section Grows.

Variable P : Program.






Lemma Channel_subscribe_info ch bs f priority context ch' r :
  repr P ch bs → Channel_subscribe P f priority context ch = Some (ch', r) →
  ∀ n, info (nodes ch) n ≠ None → info (nodes ch') n = info (nodes ch) n.
Proof.
  intros [_ HP] Hs n Hn.
  assert (n ≠ allocated ch).
  { intros ->. assert (allocated ch < allocated ch)%nat; [|lia].
    apply (pay_allocated _ _ _ _ _ HP). by destruct (info _ _). }
  revert Hs. unfold Channel_subscribe.
  destruct (existsb _ _); [by intros [= <- <-]|].
  destruct (array_get _ _).
  - destruct (last_from _ _ _); [|done]. intros [= <- <-]. simpl.
    rewrite info_insert, decide_False by done. apply info_alter_next.
  - intros [= <- <-]. simpl. by rewrite info_insert, decide_False.
Qed.

Lemma unlink_info n nd ch m : info (nodes (unlink n nd ch)) m = info (nodes ch) m.
Proof.
  unfold unlink. destruct (node_prev nd), (node_next nd); simpl;
    repeat (rewrite info_alter_prev || rewrite info_alter_next); done.
Qed.

Lemma Channel_unsubscribe_info self f ch m :
  info (nodes (Channel_unsubscribe P self f ch).1.1) m = info (nodes ch) m.
Proof.
  unfold Channel_unsubscribe. destruct (_fnHashMap ch !! _); [|done].
  destruct (find_fn _ _ _ _) as [[idx n]|]; [|done].
  destruct (_ && _); [done|]. simpl.
  destruct (nodes ch !! n); [|done]. apply unlink_info.
Qed.





End Grows.

(** ** The order of the calls of one publish *)



Section Ordered.

Variable P : Program.



End Ordered.

(** ** The worlds a client can bring about *)

(** From [new PubSub()], turn after turn: client code runs to its end, or
    the oldest callback of the timer queue does. *)
Inductive reachable (P : Program) : World → Prop :=
| reachable_new : reachable P new_PubSub
| reachable_exec w fuel p w' r :
    reachable P w → exec P fuel p w = Some (w', r) → reachable P w'
| reachable_timer w fuel t ts w' :
    reachable P w → timers w = t :: ts →
    run_timer P fuel t (set_timers ts w) = Some w' → reachable P w'.

Lemma run_timer_wf P fuel t w w' :
  wf_world P w → run_timer P fuel t w = Some w' → wf_world P w'.
Proof.
  intros Hwf. destruct t as [c args|c f]; simpl.
  - by apply (exec_wf P fuel).
  - destruct (heap w !! c) as [ch|] eqn:Hch; [|done]. simpl.
    destruct (proj1 Hwf _ _ Hch) as [bs Hbs].
    destruct (Channel_unsubscribe_repr P ch bs c f Hbs) as [bs' Hbs'].
    destruct (Channel_unsubscribe P c f ch) as [[ch' ts] b]. simpl in Hbs'.
    intros [= <-]. by eapply wf_setTimeout, wf_set_channel.
Qed.

Lemma reachable_wf P w : reachable P w → wf_world P w.
Proof.
  induction 1 as [|w fuel p w' r _ IH He|w fuel t ts w' _ IH Ht Hr].
  - apply wf_new_PubSub.
  - by apply (exec_wf P fuel) in He.
  - by apply run_timer_wf in Hr.
Qed.

(** * The claims *)

(** ** Sample clients *)

Module Sample.

(** The channel object a handler is given: its last argument. *)
Definition channel_of (args : list value) : nat :=
  match last args with
  | Some (VChannel c) => c
  | _ => 0%nat
  end.

Definition source (f : nat) : string :=
  match f with
  | 0%nat => "function thrower() { throw new Error(); }"
  | 1%nat => "function spy() {}"
  | 2%nat => "function stopper(_, channel) { channel.stopPropagation(); }"
  | 3%nat => "function self(_, channel) { channel.stopPropagation();
                throw pubsub.unsubscribe('foo', self); }"
  | 4%nat => "function again() { pubsub.publish('foo'); }"
  | 8%nat => "function late() { pubsub.subscribe('foo', spy); }"
  | 9%nat => "function once() { if (pubsub.unsubscribe('foo', once))
                throw 'removed'; }"
  | 10%nat => "function early() { pubsub.subscribe('foo', spy,
                 { priority: 0 }); }"
  | _ => "() => undefined"
  end.

Definition body (f : nat) (this : value) (args : list value) : prog :=
  match f with
  | 0%nat => Throw (Thrown (VStr "Error"))
  | 2%nat => StopPropagation (channel_of args) Return
  | 3%nat =>
      StopPropagation (channel_of args)
        (Unsubscribe "foo" 3%nat (λ b, Throw (Thrown (VBool b))))
  | 4%nat => Publish "foo" [] (λ _, Return)
  | 8%nat =>
      Subscribe "foo" 1%nat None VUndefined
        (λ r, match r with inl e => Throw e | inr _ => Return end)
  | 9%nat =>
      Unsubscribe "foo" 9%nat
        (λ b, if b then Throw (Thrown (VStr "removed")) else Return)
  | 10%nat =>
      Subscribe "foo" 1%nat (Some (mkSubPriority (Some 0))) VUndefined
        (λ r, match r with inl e => Throw e | inr _ => Return end)
  | _ => Return
  end.

Definition client : Program := mkProgram source body.

(** [pubsub.subscribe(name, f, priority)], then on with the world. *)
Definition subscribed (name : string) (f : nat) (priority : option Z)
    (w : World) : World :=
  match PubSub_subscribe client name f
          (Some (mkSubPriority priority)) VUndefined w with
  | Some (w', _) => w'
  | None => w
  end.

(** [thrower] at priority 1, [spy] at the default priority, [stopper]
    at priority 0, subscribed in that order. *)
Definition three : World :=
  subscribed "foo" 2%nat (Some 0)
    (subscribed "foo" 1%nat None
       (subscribed "foo" 0%nat (Some 1) new_PubSub)).

(** [thrower], [spy], then a second [() => undefined], all at the
    default priority. *)
Definition row : World :=
  subscribed "foo" 5%nat None
    (subscribed "foo" 1%nat None
       (subscribed "foo" 0%nat None new_PubSub)).

End Sample.

(** ** Sample worlds *)

(** [Sample.three] in the middle of a publish: the [PUBLISHING] bit of
    its channel is set. *)
Definition three_publishing : World :=
  match heap Sample.three !! 0%nat with
  | Some ch =>
      set_channel 0 (set_commandMask (Z.lor (_commandMask ch) PUBLISHING) ch)
                  Sample.three
  | None => Sample.three
  end.

(** The channel object of [three_publishing], the node of [stopper] in
    it, and the world in which the publish calls [stopper]. *)
Definition three_channel : Channel :=
  default (new_Channel "") (heap three_publishing !! 0%nat).




(** The channel object of [Sample.three], idle. *)
Definition three_idle : Channel :=
  default (new_Channel "") (heap Sample.three !! 0%nat).

(** The channel of [Sample.three] while the publish is calling
    [stopper]. *)
Definition three_calling : Channel := set_callingNode (Some 2%nat) three_channel.

(** [self] alone on ["foo"], and its channel object at the moment the
    publish has called [self] and [self] has interrupted the channel. *)
Definition solo : World := Sample.subscribed "foo" 3%nat None new_PubSub.

Definition solo_interrupted : Channel :=
  match heap solo !! 0%nat with
  | Some ch =>
      Channel_interrupt
        (set_callingNode (Some 0%nat)
           (set_commandMask (Z.lor (_commandMask ch) PUBLISHING) ch))
  | None => new_Channel "foo"
  end.

(** [thrower] at priority 1, [spy] at the default priority, then two
    functions that return, at priorities 0 and 1: none of them calls
    back. *)
Definition mixed : World :=
  Sample.subscribed "foo" 6%nat (Some 1)
    (Sample.subscribed "foo" 5%nat (Some 0)
       (Sample.subscribed "foo" 1%nat None
          (Sample.subscribed "foo" 0%nat (Some 1) new_PubSub))).

Definition mixed_channel : Channel :=
  default (new_Channel "") (heap mixed !! 0%nat).


(** [late] alone, [early] alone, and [once] before [spy], at the default
    priority. *)
Definition late : World := Sample.subscribed "foo" 8%nat None new_PubSub.

Definition early : World := Sample.subscribed "foo" 10%nat None new_PubSub.

Definition once : World :=
  Sample.subscribed "foo" 1%nat None
    (Sample.subscribed "foo" 9%nat None new_PubSub).

(** [once] after a publish, and its channel object. *)
Definition once_published : World :=
  default once (PubSub_publish Sample.client 30 "foo" [] once).

Definition once_channel : Channel :=
  default (new_Channel "") (heap once_published !! 0%nat).

(** [{ suppressErrors: b }]. *)
Definition options (suppressErrors : bool) : value :=
  VObject [("suppressErrors", VBool suppressErrors)].

(** [thrower] alone. *)
Definition alone : World := Sample.subscribed "foo" 0%nat None new_PubSub.

(** [thrower], then [stopper], both at the default priority. *)
Definition halted : World :=
  Sample.subscribed "foo" 2%nat None
    (Sample.subscribed "foo" 0%nat None new_PubSub).

(** [spy] alone. *)
Definition watched : World := Sample.subscribed "foo" 1%nat None new_PubSub.

(** The caller: [try { pubsub.publish("foo", ...args) } catch (e) { throw e }],
    which ends with the error [publish] threw, if any. *)
Definition caller (args : list value) : prog :=
  Publish "foo" args (λ r, match r with Some e => Throw e | None => Return end).

(** What is left of a run: the error that reached the caller, the
    functions called and the console. *)
Definition outcome (r : option (World * option error))
  : option (option error * list Function * list log_entry) :=
  '(w, e) ← r; Some (e, map call_fn (calls w), console w).














(** A client whose handler on one channel publishes to another one. *)
Module Relay.

Definition source (f : nat) : string :=
  match f with
  | 0%nat => "function relay() { pubsub.publish('bar', 1); }"
  | _ => "function spy() {}"
  end.

Definition body (f : nat) (this : value) (args : list value) : prog :=
  match f with
  | 0%nat => Publish "bar" [VNum 1] (λ _, Return)
  | _ => Return
  end.

Definition client : Program := mkProgram source body.

(** [relay] and [spy] on the channel foo, [spy] on the channel bar. *)
Definition setup : prog :=
  Subscribe "foo" 0%nat None VUndefined
    (λ _, Subscribe "foo" 1%nat None VUndefined
       (λ _, Subscribe "bar" 1%nat None VUndefined (λ _, Return))).

Definition relayed : World :=
  match exec client 5 setup new_PubSub with
  | Some (w, _) => w
  | None => new_PubSub
  end.

(** [relayed] in the middle of a publish on foo. *)
Definition publishing : World :=
  match heap relayed !! 0%nat with
  | Some ch =>
      set_channel 0 (set_commandMask (Z.lor (_commandMask ch) PUBLISHING) ch)
                  relayed
  | None => relayed
  end.




End Relay.

Lemma reachable_subscribed P name f priority context w w' r :
  reachable P w →
  PubSub_subscribe P name f priority context w = Some (w', r) →
  reachable P w'.
Proof.
  intros Hw Hs.
  apply (reachable_exec P w 2 (Subscribe name f priority context (λ _, Return))
           w' None Hw).
  rewrite exec_unfold, Hs. by rewrite exec_unfold.
Qed.

Lemma reachable_three : reachable Sample.client Sample.three.
Proof.
  apply (reachable_exec Sample.client new_PubSub 4
           (Subscribe "foo" 0%nat (Some (mkSubPriority (Some 1))) VUndefined
              (λ _, Subscribe "foo" 1%nat (Some (mkSubPriority None)) VUndefined
                 (λ _, Subscribe "foo" 2%nat (Some (mkSubPriority (Some 0)))
                         VUndefined (λ _, Return))))
           Sample.three None (reachable_new _)).
  vm_compute. reflexivity.
Qed.

(** C9: every subscribe, unsubscribe and publish, and whatever handlers
    do while a publish runs, keeps the buckets doubly linked:
    [node.prev.next == node] and [node.next.prev == node] whenever those
    neighbours exist, and a node that is in no bucket has [prev] and
    [next] cleared. In a world with that invariant, subscribe and
    unsubscribe return, and client code and timers, when they come to
    an end, leave it in place. *)
Theorem buckets_stay_doubly_linked (P : Program) (w : World) :
  reachable P w →
  (∀ c ch, heap w !! c = Some ch → dll_invariant ch) ∧
  (∀ name f priority context,
     ∃ w' r, PubSub_subscribe P name f priority context w = Some (w', r) ∧
             reachable P w' ∧
             ∀ c ch, heap w' !! c = Some ch → dll_invariant ch) ∧
  (∀ name f c ch,
     heap (PubSub_unsubscribe P name f w).1 !! c = Some ch → dll_invariant ch) ∧
  (∀ fuel name args w' c ch,
     PubSub_publish P fuel name args w = Some w' →
     heap w' !! c = Some ch → dll_invariant ch) ∧
  (∀ fuel p w' r c ch,
     exec P fuel p w = Some (w', r) →
     heap w' !! c = Some ch → dll_invariant ch).
Proof.
  intros Hr. pose proof (reachable_wf P w Hr) as Hwf.
  assert (Hdll : ∀ w0, wf_world P w0 →
            ∀ c ch, heap w0 !! c = Some ch → dll_invariant ch).
  { intros w0 [H _] c ch Hch. destruct (H _ _ Hch) as [bs Hbs].
    by eapply repr_dll_invariant. }
  split_and!.
  - by apply Hdll.
  - intros name f priority context.
    destruct (PubSub_subscribe_wf P name f priority context w Hwf)
      as (w' & r & Hs & Hwf').
    exists w', r. split; [done|]. split; [by eapply reachable_subscribed|].
    by apply Hdll.
  - intros name f. apply Hdll. by apply PubSub_unsubscribe_wf.
  - intros fuel name args w' c ch Hp. apply Hdll.
    by apply (exec_wf P fuel) in Hp.
  - intros fuel p w' r c ch He. apply Hdll. by apply (exec_wf P fuel) in He.
Qed.

Lemma buckets_stay_doubly_linked_witness :
  reachable Sample.client Sample.three ∧
  ∀ c ch, heap Sample.three !! c = Some ch → dll_invariant ch.
Proof.
  split; [exact reachable_three|].
  exact (proj1 (buckets_stay_doubly_linked Sample.client Sample.three
                  reachable_three)).
Defined.




Lemma wf_three_publishing : wf_world Sample.client three_publishing.
Proof.
  pose proof (reachable_wf _ _ reachable_three) as Hwf.
  unfold three_publishing.
  destruct (heap Sample.three !! 0%nat) as [ch|] eqn:E; [|done].
  destruct (proj1 Hwf _ _ E) as [bs Hbs]. by eapply wf_set_channel.
Qed.


(** C10: [stopPropagation] on an idle channel leaves [SIG_INT] set. The
    next publish on that channel calls no handler and clears the flag: it
    leaves the world as it was before the interrupt, so the publish after
    it is an ordinary one. *)
Theorem interrupt_while_idle_aborts_next_publish (P : Program) (c : nat)
    (args : list value) (w : World) (ch : Channel) :
  heap w !! c = Some ch → _commandMask ch = 0 →
  interrupted c (stopPropagation c w) ∧
  calls (stopPropagation c w) = calls w ∧
  ∀ fuel, (2 * length (_priorityMatrix ch) + 2 ≤ fuel)%nat →
    Channel_publish P fuel c args (stopPropagation c w) = Some w.
Proof.
  intros Hch Hidle. unfold stopPropagation. rewrite Hch. split_and!.
  - eexists. simpl. rewrite lookup_insert_eq. split; [done|].
    apply land_lor_SIG_INT.
  - done.
  - intros fuel Hfuel.
    remember (2 * (length (_priorityMatrix ch) - 0) + 1)%nat as k eqn:Hk.
    eapply (Channel_publish_fuel_le P (S k)); [lia|].
    rewrite Channel_publish_unfold. simpl. rewrite lookup_insert_eq. simpl.
    rewrite bool_decide_eq_false_2.
    2:{ rewrite Hidle. intros H. by apply H. }
    set (ch3 := set_commandMask _ _).
    set (w3 := set_channel c ch3 _).
    assert (H3 : heap w3 !! c = Some ch3)
      by (unfold w3; simpl; by rewrite lookup_insert_eq).
    assert (Hi3 : Z.land (_commandMask ch3) SIG_INT ≠ 0)
      by (unfold ch3; simpl; by rewrite Hidle).
    rewrite Hk.
    rewrite (for_loop_interrupted P c args w3 ch3 H3 Hi3
               (length (_priorityMatrix ch) - 0) 0 eq_refl).
    f_equal. unfold cleared, w3, ch3, set_channel, set_commandMask.
    destruct w as [chs hp ts con cl], ch as [ns m mx fm cn nds al].
    simpl in *. subst m. f_equal. rewrite !insert_insert_eq.
    by apply insert_id.
Qed.

Lemma interrupt_while_idle_aborts_next_publish_witness :
  heap Sample.three !! 0%nat = Some three_idle ∧ _commandMask three_idle = 0 ∧
  Channel_publish Sample.client 12 0 [VNum 1]
    (stopPropagation 0 Sample.three) = Some Sample.three.
Proof.
  assert (Hch : heap Sample.three !! 0%nat = Some three_idle)
    by (vm_compute; reflexivity).
  assert (Hidle : _commandMask three_idle = 0) by (vm_compute; reflexivity).
  split; [exact Hch|]. split; [exact Hidle|].
  apply (proj2 (proj2 (interrupt_while_idle_aborts_next_publish Sample.client 0
                         [VNum 1] Sample.three three_idle Hch Hidle))).
  assert (E : length (_priorityMatrix three_idle) = 5%nat)
    by (vm_compute; reflexivity).
  rewrite E. lia.
Defined.

Lemma subscribed_fn_registered P ch bs f :
  repr P ch bs → subscribed_fn ch f ↔ registered ch bs f.
Proof.
  intros Hbs. split.
  - intros (i & n & nd & Hin & Hn & Hf). exists n, nd.
    apply (repr_in_bucket P ch bs) in Hin; [|done].
    destruct (repr_priority P _ _ _ _ Hbs Hin) as (nd' & Hn' & Hp).
    assert (nd' = nd) as -> by congruence. by rewrite Hp.
  - intros (n & nd & Hn & Hin & Hf). exists (node_priority nd), n, nd.
    split; [|done]. by apply (repr_in_bucket P ch bs).
Qed.

(** What a successful [PubSub.subscribe] leaves: the name leads to the
    channel it returned, and the function is subscribed there. *)
Lemma PubSub_subscribe_subscribed P name f priority context w w1 c :
  wf_world P w →
  PubSub_subscribe P name f priority context w = Some (w1, inr c) →
  ∃ ch1, _channels w1 !! name = Some c ∧ heap w1 !! c = Some ch1 ∧
         subscribed_fn ch1 f.
Proof.
  intros Hwf. unfold PubSub_subscribe.
  set (w0 := match _channels w !! name with
             | Some _ => w
             | None => _
             end).
  assert (Hwf0 : wf_world P w0).
  { unfold w0. destruct (_channels w !! name) eqn:E; [done|].
    destruct (wf_set_channel P w (fresh (dom (heap w))) _ _ Hwf
                (repr_new P name)) as [H1 H2].
    split; [done|]. simpl. intros name' c'.
    destruct (decide (name = name')) as [->|].
    - rewrite lookup_insert_eq. intros [= <-]. rewrite lookup_insert_eq. eauto.
    - rewrite lookup_insert_ne by done. apply H2. }
  destruct (_channels w0 !! name) as [c0|] eqn:Hc0; [|done]. simpl.
  destruct (heap w0 !! c0) as [ch0|] eqn:Hch0; [|done]. simpl.
  destruct (proj1 Hwf0 _ _ Hch0) as [bs Hbs].
  destruct (registered_dec P ch0 bs f Hbs) as [Hreg|Hnew].
  { by rewrite (Channel_subscribe_duplicate P ch0 bs f _ _ Hbs Hreg). }
  destruct (Channel_subscribe_fresh P ch0 bs f (resolve_priority priority)
              context Hbs Hnew) as (ch' & -> & Hr' & _ & _ & _ & Hi).
  simpl. intros [= <- <-]. exists ch'. simpl. rewrite lookup_insert_eq.
  split; [done|]. split; [done|].
  apply info_Some in Hi as (nd & Hn & Hs & Hp).
  apply (subscribed_fn_registered P ch' _ f Hr'). exists (allocated ch0), nd.
  split; [done|]. split.
  - rewrite Hp, bucket_set_eq. set_solver.
  - unfold node_fn. by rewrite Hs.
Qed.

(** C6: subscribing a function that is subscribed to the channel throws
    the duplicate-subscription error out of [PubSub.subscribe], whatever
    the priority and the context, and the registry stays as it was; the
    caller is continued with the error. A function is subscribed as soon
    as a [subscribe] of it has returned, so the second of two subscribes
    in a row throws. *)
Theorem duplicate_subscribe_throws (P : Program) (w : World) :
  reachable P w →
  (∀ name c ch f priority context,
     _channels w !! name = Some c → heap w !! c = Some ch →
     subscribed_fn ch f →
     PubSub_subscribe P name f priority context w
       = Some (w, inl (DuplicateSubscriber f (namespace ch))) ∧
     ∀ fuel k,
       exec P (S fuel) (Subscribe name f priority context k) w
         = exec P fuel (k (inl (DuplicateSubscriber f (namespace ch)))) w) ∧
  (∀ name f priority context w1 c,
     PubSub_subscribe P name f priority context w = Some (w1, inr c) →
     ∀ priority' context',
       ∃ namespace,
         PubSub_subscribe P name f priority' context' w1
           = Some (w1, inl (DuplicateSubscriber f namespace))).
Proof.
  intros Hr. pose proof (reachable_wf P w Hr) as Hwf.
  assert (Hdup : ∀ w name c ch f priority context, wf_world P w →
            _channels w !! name = Some c → heap w !! c = Some ch →
            subscribed_fn ch f →
            PubSub_subscribe P name f priority context w
              = Some (w, inl (DuplicateSubscriber f (namespace ch)))).
  { clear. intros w name c ch f priority context Hwf Hname Hch Hsub.
    unfold PubSub_subscribe. rewrite Hname. simpl. rewrite Hname. simpl.
    rewrite Hch. simpl.
    destruct (proj1 Hwf _ _ Hch) as [bs Hbs].
    apply (subscribed_fn_registered P ch bs f Hbs) in Hsub.
    by rewrite (Channel_subscribe_duplicate P ch bs f _ _ Hbs Hsub). }
  split.
  - intros name c ch f priority context Hname Hch Hsub.
    pose proof (Hdup w name c ch f priority context Hwf Hname Hch Hsub) as E.
    split; [done|]. intros fuel k. by rewrite exec_unfold, E.
  - intros name f priority context w1 c Hs priority' context'.
    destruct (PubSub_subscribe_subscribed P _ _ _ _ _ _ _ Hwf Hs)
      as (ch1 & Hname & Hch1 & Hsub).
    exists (namespace ch1). apply (Hdup w1 name c ch1); try done.
    destruct (PubSub_subscribe_wf P name f priority context w Hwf)
      as (w1' & r & E & Hwf1). congruence.
Qed.

Lemma duplicate_subscribe_throws_witness :
  reachable Sample.client Sample.three ∧
  ∃ namespace,
    PubSub_subscribe Sample.client "foo" 7%nat None VUndefined
      (Sample.subscribed "foo" 7%nat (Some 2) Sample.three)
    = Some (Sample.subscribed "foo" 7%nat (Some 2) Sample.three,
            inl (DuplicateSubscriber 7%nat namespace)).
Proof.
  split; [exact reachable_three|].
  apply (proj2 (duplicate_subscribe_throws Sample.client Sample.three
                  reachable_three) "foo" 7%nat
               (Some (mkSubPriority (Some 2))) VUndefined _ 0%nat).
  vm_compute. reflexivity.
Defined.

(** C3, as the claim states it, fails: [self] calls [stopPropagation] and
    then unsubscribes itself while it is the node being called; the call
    returns [true] (the handler throws what it returned, and the console
    shows it) and the node is out of its bucket at once. *)
Lemma unsubscribe_of_calling_node_counterexample :
  (w' ← PubSub_publish Sample.client 30 "foo" [] solo;
   Some (console w', _priorityMatrix <$> heap w' !! 0%nat))
  = Some ([mkLog 0 0 (Thrown (VBool true))],
          Some [None; None; None; None; None]) ∧
  _callingNode solo_interrupted = Some 0%nat ∧
  holds_fn (nodes solo_interrupted) 3 0 = true ∧
  array_get (_priorityMatrix solo_interrupted) 4 = Some 0%nat ∧
  (let '(ch', ts, b) := Channel_unsubscribe Sample.client 0 3 solo_interrupted in
   (array_get (_priorityMatrix ch') 4, ts, b)) = (None, [], true).
Proof. vm_compute. repeat split. Qed.

(** C3, amended: unsubscribing the function of the node that is being
    called, on a channel that has not been interrupted, removes nothing:
    it hands [unsubscribe] with the function to [setTimeout] and returns
    [false]. On an interrupted channel that node is taken out at once
    and [true] is returned. In every case [unsubscribe] returns [true]
    exactly when a node left its bucket during the call, and
    [PubSub.unsubscribe] returns what [Channel.unsubscribe] returned. *)
Theorem unsubscribe_returns_whether_it_evicted (P : Program) (self : nat)
    (f : Function) (ch : Channel) (bs : nat → list nat) :
  repr P ch bs →
  (∀ n nd, _callingNode ch = Some n → nodes ch !! n = Some nd →
     in_bucket ch (node_priority nd) n → node_fn nd = f →
     Z.land (_commandMask ch) SIG_INT = 0 →
     Channel_unsubscribe P self f ch = (ch, [TimerUnsubscribe self f], false)) ∧
  (∀ n nd, _callingNode ch = Some n → nodes ch !! n = Some nd →
     in_bucket ch (node_priority nd) n → node_fn nd = f →
     Z.land (_commandMask ch) SIG_INT ≠ 0 →
     ∃ ch', Channel_unsubscribe P self f ch = (ch', [], true) ∧
            ¬ in_bucket ch' (node_priority nd) n ∧
            nodes ch' !! n
              = Some (mkNode None None (node_subscription nd)
                             (node_priority nd))) ∧
  (∀ ch' ts b, Channel_unsubscribe P self f ch = (ch', ts, b) →
     (b = true ↔ ∃ i n, in_bucket ch i n ∧ ¬ in_bucket ch' i n) ∧
     (b = false → ch' = ch)) ∧
  (∀ w name, _channels w !! name = Some self → heap w !! self = Some ch →
     (PubSub_unsubscribe P name f w).2 = (Channel_unsubscribe P self f ch).2).
Proof.
  intros Hbs.
  assert (Hevict : ∀ n nd, nodes ch !! n = Some nd →
            n ∈ bs (node_priority nd) → node_fn nd = f →
            ¬ (_callingNode ch = Some n ∧ Z.land (_commandMask ch) SIG_INT = 0) →
            ∃ ch', Channel_unsubscribe P self f ch = (ch', [], true) ∧
                   ¬ in_bucket ch' (node_priority nd) n ∧
                   nodes ch' !! n
                     = Some (mkNode None None (node_subscription nd)
                                    (node_priority nd))).
  { intros n nd Hn Hin Hf Hnot.
    destruct (Channel_unsubscribe_evict P ch bs self f n nd Hbs Hn Hin Hf Hnot)
      as (ch' & l1 & l2 & E & Hl & Hr' & Hn' & _).
    exists ch'. split; [done|]. split; [|done].
    rewrite (repr_in_bucket P ch' _ _ _ Hr'), bucket_set_eq.
    pose proof (pay_NoDup P _ _ _ _ (node_priority nd) (proj2 Hbs)) as Hnd.
    rewrite Hl in Hnd. apply NoDup_app in Hnd as (_ & Hd & (? & _)%NoDup_cons).
    intros [Hi|Hi]%elem_of_app; [|done]. apply (Hd _ Hi). set_solver. }
  split_and!.
  - intros n nd Hcall Hn Hin Hf Hmask.
    apply (repr_in_bucket P ch bs) in Hin; [|done].
    by eapply Channel_unsubscribe_deferred.
  - intros n nd Hcall Hn Hin Hf Hmask.
    apply (repr_in_bucket P ch bs) in Hin; [|done].
    apply Hevict; try done. intros [_ ?]. done.
  - intros ch' ts b E.
    destruct (registered_dec P ch bs f Hbs) as [(n & nd & Hn & Hin & Hf)|Hnew].
    + destruct (decide (_callingNode ch = Some n ∧
                        Z.land (_commandMask ch) SIG_INT = 0)) as [[? ?]|Hnot].
      * rewrite (Channel_unsubscribe_deferred P ch bs self f n nd) in E;
          try done. injection E as <- <- <-. split; [|done].
        split; [done|]. by intros (i & m & ? & ?).
      * destruct (Hevict n nd Hn Hin Hf Hnot) as (ch1 & E1 & Hout & _).
        rewrite E1 in E. injection E as <- <- <-. split; [|done].
        split; [|done]. intros _. exists (node_priority nd), n.
        split; [|done]. by apply (repr_in_bucket P ch bs).
    + rewrite (Channel_unsubscribe_absent P ch bs self f Hbs Hnew) in E.
      injection E as <- <- <-. split; [|done].
      split; [done|]. by intros (i & m & ? & ?).
  - intros w name Hname Hch. unfold PubSub_unsubscribe.
    rewrite Hname, Hch.
    destruct (Channel_unsubscribe P self f ch) as [[ch' ts] b]. simpl.
    by destruct b, (hasSubscribers ch').
Qed.

Lemma unsubscribe_returns_whether_it_evicted_witness :
  (∃ bs, repr Sample.client three_calling bs) ∧
  Channel_unsubscribe Sample.client 0 2 three_calling
    = (three_calling, [TimerUnsubscribe 0 2], false).
Proof.
  assert (Hr : ∃ bs, repr Sample.client three_calling bs).
  { destruct (proj1 wf_three_publishing 0%nat three_channel) as [bs Hbs];
      [vm_compute; reflexivity|].
    exists bs. by apply repr_set_callingNode. }
  split; [exact Hr|]. destruct Hr as [bs Hbs].
  apply (proj1 (unsubscribe_returns_whether_it_evicted Sample.client 0 2
                  three_calling bs Hbs) 2%nat
               (mkNode None None (mkSubscription (hashFn Sample.client 2) 2
                                                 VUndefined) 0)).
  - reflexivity.
  - vm_compute. reflexivity.
  - exists [2%nat]. split; [|set_solver]. split; [vm_compute; reflexivity|].
    eexists. split; [vm_compute; reflexivity|]. split; reflexivity.
  - reflexivity.
  - vm_compute. reflexivity.
Defined.



Lemma repr_bucket_lt P ch bs i n :
  repr P ch bs → n ∈ bs i → (i < length (_priorityMatrix ch))%nat.
Proof.
  intros [HL _] Hn. destruct (decide (i < length (_priorityMatrix ch))%nat);
    [done|].
  pose proof (links_chain _ _ _ HL i) as Hc.
  rewrite array_get_ge in Hc by lia. apply chain_nil_inv in Hc.
  rewrite Hc in Hn. by apply elem_of_nil in Hn.
Qed.




(** ** Concrete channels *)

(** Proves that a concrete list is a bucket of a concrete channel. *)
Ltac concrete_chain :=
  unfold chain;
  repeat (split; [vm_compute; reflexivity|];
          eexists; split; [vm_compute; reflexivity|];
          split; [reflexivity|]);
  vm_compute; reflexivity.

(** Replaces the bucket [l] of [Hl] by the concrete list [l0]. *)
Ltac bucket_is Hl l0 :=
  match type of Hl with
  | chain ?ns ?h ?l =>
      let Hc := fresh in
      assert (Hc : chain ns h l0) by concrete_chain;
      rewrite (lseg_inj _ _ _ _ _ _ Hl Hc)
  end.

Lemma reachable_mixed : reachable Sample.client mixed.
Proof.
  apply (reachable_exec Sample.client new_PubSub 5
           (Subscribe "foo" 0%nat (Some (mkSubPriority (Some 1))) VUndefined
              (λ _, Subscribe "foo" 1%nat (Some (mkSubPriority None)) VUndefined
                 (λ _, Subscribe "foo" 5%nat (Some (mkSubPriority (Some 0)))
                         VUndefined
                    (λ _, Subscribe "foo" 6%nat (Some (mkSubPriority (Some 1)))
                            VUndefined (λ _, Return)))))
           mixed None (reachable_new _)).
  vm_compute. reflexivity.
Qed.

(** The buckets of [mixed]: function 5 at priority 0, [thrower] and
    function 6 at priority 1, [spy] at the default priority. *)
Lemma mixed_bucket_nodes i l :
  bucket_nodes mixed_channel i l →
  l = default [] ([[2]; [0; 3]; []; []; [1]]%nat !! i).
Proof.
  unfold bucket_nodes. intros Hl.
  do 5 (try destruct i as [|i]);
    [bucket_is Hl [2%nat]|bucket_is Hl [0; 3]%nat|bucket_is Hl (@nil nat)
    |bucket_is Hl (@nil nat)|bucket_is Hl [1%nat]|bucket_is Hl (@nil nat)];
    reflexivity.
Qed.


(** On [mixed]: subscribed in the order [thrower] (priority 1), [spy]
    (default priority), function 5 (priority 0), function 6 (priority
    1), the handlers are called in the order 5, [thrower], 6, [spy]. *)
Lemma publish_mixed_order :
  (λ w', map call_fn (calls w'))
    <$> PubSub_publish Sample.client 30 "foo" [VNum 1] mixed
  = Some [5%nat; 0%nat; 6%nat; 1%nat].
Proof. vm_compute. reflexivity. Qed.






(** On [Sample.row] the thrower is called first and throws; the two
    handlers after it are called all the same, and the console holds the
    one error. *)
Lemma publish_row_calls_all :
  (λ w', (map call_fn (calls w'), console w'))
    <$> PubSub_publish Sample.client 30 "foo" [VNum 1] Sample.row
  = Some ([0%nat; 1%nat; 5%nat], [mkLog 0 0 (Thrown (VStr "Error"))]).
Proof. vm_compute. reflexivity. Qed.

(** ** Publishing with an options object *)

(** C1: [publish("foo", { suppressErrors: false })] on a channel whose
    handler throws returns to the caller without an error, the error
    being logged only; so it does when a later handler interrupts the
    publish, and so it does with [{ suppressErrors: true }] and with no
    options at all. *)
Theorem publish_never_rethrows :
  outcome (exec Sample.client 30 (caller [options false]) alone)
    = Some (None, [0%nat], [mkLog 0 0 (Thrown (VStr "Error"))]) ∧
  outcome (exec Sample.client 30 (caller [options false]) halted)
    = Some (None, [0%nat; 2%nat], [mkLog 0 0 (Thrown (VStr "Error"))]) ∧
  outcome (exec Sample.client 30 (caller [options true]) alone)
    = Some (None, [0%nat], [mkLog 0 0 (Thrown (VStr "Error"))]) ∧
  outcome (exec Sample.client 30 (caller []) alone)
    = Some (None, [0%nat], [mkLog 0 0 (Thrown (VStr "Error"))]).
Proof. repeat split; vm_compute; reflexivity. Qed.

(** C7: [PubSub.publish] hands [slice(arguments, 1)] to the channel as it
    is, and [Channel.publish] calls each handler with these arguments and
    the channel: on [publish("foo", 1, { suppressErrors: false })] the
    handler is called with [1], the options object and the channel. *)
Theorem publish_forwards_the_options_object :
  (∀ P fuel name c args w, _channels w !! name = Some c →
     PubSub_publish P (S fuel) name args w = Channel_publish P fuel c args w) ∧
  (λ w', map call_args (calls w'))
    <$> PubSub_publish Sample.client 30 "foo" [VNum 1; options false] watched
  = Some [[VNum 1; options false; VChannel 0]].
Proof.
  split.
  - intros P fuel name c args w Hc. rewrite PubSub_publish_unfold. by rewrite Hc.
  - vm_compute. reflexivity.
Qed.

(** * Further properties *)

(** ** Unsubscribing, seen from the buckets *)

(** A node taken out by [unsubscribe] leaves the other nodes where they
    are, and its function is subscribed no more. *)
Lemma Channel_unsubscribe_gone P ch bs self f n nd :
  repr P ch bs → nodes ch !! n = Some nd → n ∈ bs (node_priority nd) →
  node_fn nd = f →
  ¬ (_callingNode ch = Some n ∧ Z.land (_commandMask ch) SIG_INT = 0) →
  ∃ ch' bs', Channel_unsubscribe P self f ch = (ch', [], true) ∧
    repr P ch' bs' ∧ (∀ i m, m ∈ bs' i ↔ m ∈ bs i ∧ m ≠ n) ∧
    ¬ registered ch' bs' f.
Proof.
  intros Hbs Hn Hin Hf Hnot.
  destruct (Channel_unsubscribe_evict P ch bs self f n nd Hbs Hn Hin Hf Hnot)
    as (ch' & l1 & l2 & E & Hl & Hr' & _).
  pose proof (Channel_unsubscribe_info P self f ch) as Hinfo.
  rewrite E in Hinfo. simpl in Hinfo.
  pose proof (pay_NoDup P _ _ _ _ (node_priority nd) (proj2 Hbs)) as Hnd.
  rewrite Hl in Hnd. apply NoDup_app in Hnd as (_ & Hd & (Hn2 & _)%NoDup_cons).
  assert (Hmem : ∀ i m, m ∈ bucket_set bs (node_priority nd) (l1 ++ l2) i
                        ↔ m ∈ bs i ∧ m ≠ n).
  { intros i m. unfold bucket_set. case_decide as Hi.
    - subst i. rewrite Hl. split.
      + intros [Hm|Hm]%elem_of_app.
        * split; [set_solver|]. intros ->. apply (Hd _ Hm). set_solver.
        * split; [set_solver|]. by intros ->.
      + intros [Hm Hne]. set_solver.
    - split; [|by intros [? _]]. intros Hm. split; [done|]. intros ->.
      destruct (repr_priority P _ _ _ _ Hbs Hm) as (nd' & Hn' & Hp).
      congruence. }
  exists ch', (bucket_set bs (node_priority nd) (l1 ++ l2)).
  split; [done|]. split; [done|]. split; [done|].
  intros (m & nd' & Hm & Hmin & Hmf).
  apply Hmem in Hmin as [Hmin Hne]. apply Hne.
  assert (Him : info (nodes ch) m
                = Some (node_subscription nd', node_priority nd')).
  { rewrite <- Hinfo. apply info_Some. eauto. }
  assert (Hi : info (nodes ch) n = Some (node_subscription nd, node_priority nd))
    by (apply info_Some; eauto).
  symmetry.
  apply (pay_fn P _ _ _ _ (proj2 Hbs) _ _ _ _ _ _ Hi Him Hin Hmin).
  unfold node_fn in *. congruence.
Qed.

(** [hasSubscribers] tells whether a bucket holds a node. *)
Lemma hasSubscribers_spec P ch bs :
  repr P ch bs → hasSubscribers ch = true ↔ ∃ i n, n ∈ bs i.
Proof.
  intros [_ HP]. unfold hasSubscribers. rewrite bool_decide_eq_true. split.
  - intros Hsize.
    assert (Hne : _fnHashMap ch ≠ ∅).
    { intros E. rewrite E, map_size_empty in Hsize. lia. }
    apply map_choose in Hne as (id & fa & Hfa).
    destruct (pay_index P _ _ _ _ HP _ _ Hfa) as (Hnil & _ & Hall).
    destruct fa as [|n fa]; [done|].
    destruct (Hall n) as (s & p & _ & _ & Hin); [set_solver|]. eauto.
  - intros (i & n & Hin).
    destruct (pay_priority P _ _ _ _ HP _ _ Hin) as (s & Hs).
    destruct (pay_indexed P _ _ _ _ HP _ _ _ Hs Hin) as (fa & Hfa & _).
    assert (size (_fnHashMap ch) ≠ 0)%nat; [|lia].
    apply map_size_non_empty_iff. intros E. by rewrite E in Hfa.
Qed.

Lemma hasSubscribers_subscribed P ch bs :
  repr P ch bs → hasSubscribers ch = false ↔ ∀ g, ¬ subscribed_fn ch g.
Proof.
  intros Hbs. rewrite <- not_true_iff_false, (hasSubscribers_spec P ch bs Hbs).
  split.
  - intros Hno g (i & n & nd & Hin & _). apply Hno. exists i, n.
    by apply (repr_in_bucket P ch bs).
  - intros Hno (i & n & Hin).
    destruct (repr_priority P _ _ _ _ Hbs Hin) as (nd & Hn & Hp).
    apply (Hno (node_fn nd)). exists i, n, nd. split; [|done].
    by apply (repr_in_bucket P ch bs).
Qed.

Lemma setTimeout_nil w : setTimeout [] w = w.
Proof. destruct w. unfold setTimeout. simpl. by rewrite app_nil_r. Qed.

(** ** The deferred unsubscribe *)

(** X1: the callback queued by an [unsubscribe] of the node that is being
    called is [Channel.unsubscribe] with the same function. Run in a
    later turn, when the channel calls no node, it takes the node out of
    its bucket and queues nothing: the function is subscribed no more,
    every other function is subscribed as before, and the registry is
    not touched, so the name leads to the channel whether or not it has
    subscribers left. *)
Theorem deferred_unsubscribe_takes_effect (P : Program) (c : nat)
    (f : Function) (w : World) (ch : Channel) :
  reachable P w → heap w !! c = Some ch → _callingNode ch = None →
  subscribed_fn ch f →
  ∀ fuel, ∃ ch',
    run_timer P fuel (TimerUnsubscribe c f) w = Some (set_channel c ch' w) ∧
    ¬ subscribed_fn ch' f ∧
    (∀ g, g ≠ f → subscribed_fn ch g ↔ subscribed_fn ch' g) ∧
    _channels (set_channel c ch' w) = _channels w ∧
    timers (set_channel c ch' w) = timers w.
Proof.
  intros Hr Hch Hcall Hsub fuel.
  destruct (proj1 (reachable_wf P w Hr) _ _ Hch) as [bs Hbs].
  apply (subscribed_fn_registered P ch bs f Hbs) in Hsub
    as (n & nd & Hn & Hin & Hf).
  destruct (Channel_unsubscribe_gone P ch bs c f n nd Hbs Hn Hin Hf)
    as (ch' & bs' & E & Hbs' & Hmem & Hgone).
  { rewrite Hcall. by intros [? _]. }
  pose proof (Channel_unsubscribe_info P c f ch) as Hinfo.
  rewrite E in Hinfo. simpl in Hinfo.
  exists ch'. split.
  { unfold run_timer. rewrite Hch. simpl. rewrite E. by rewrite setTimeout_nil. }
  split; [by rewrite (subscribed_fn_registered P ch' bs' f Hbs')|].
  split; [|done].
  intros g Hg.
  rewrite (subscribed_fn_registered P ch bs g Hbs),
    (subscribed_fn_registered P ch' bs' g Hbs').
  split.
  - intros (m & ndm & Hm & Hmin & Hmf).
    assert (Hi : info (nodes ch') m
                 = Some (node_subscription ndm, node_priority ndm)).
    { rewrite Hinfo. apply info_Some. eauto. }
    apply info_Some in Hi as (ndm' & Hm' & Hs' & Hp').
    exists m, ndm'. split; [done|]. split.
    + rewrite Hp'. apply Hmem. split; [done|]. intros ->.
      apply Hg. rewrite <- Hmf, <- Hf. congruence.
    + unfold node_fn in *. by rewrite Hs'.
  - intros (m & ndm' & Hm' & Hmin & Hmf).
    assert (Hi : info (nodes ch) m
                 = Some (node_subscription ndm', node_priority ndm')).
    { rewrite <- Hinfo. apply info_Some. eauto. }
    apply info_Some in Hi as (ndm & Hm & Hs & Hp).
    exists m, ndm. split; [done|]. split.
    + rewrite Hp. by apply Hmem in Hmin as [? _].
    + unfold node_fn in *. by rewrite Hs.
Qed.

Lemma reachable_once_published : reachable Sample.client once_published.
Proof.
  apply (reachable_exec Sample.client new_PubSub 40
           (Subscribe "foo" 9%nat (Some (mkSubPriority None)) VUndefined
              (λ _, Subscribe "foo" 1%nat (Some (mkSubPriority None)) VUndefined
                 (λ _, Publish "foo" [] (λ _, Return))))
           once_published None (reachable_new _)).
  vm_compute. reflexivity.
Qed.

Lemma deferred_unsubscribe_takes_effect_witness :
  timers once_published = [TimerUnsubscribe 0 9] ∧
  heap once_published !! 0%nat = Some once_channel ∧
  _callingNode once_channel = None ∧ subscribed_fn once_channel 9%nat ∧
  ∃ ch', run_timer Sample.client 0 (TimerUnsubscribe 0 9) once_published
           = Some (set_channel 0 ch' once_published) ∧
         ¬ subscribed_fn ch' 9%nat.
Proof.
  assert (Hch : heap once_published !! 0%nat = Some once_channel)
    by (vm_compute; reflexivity).
  assert (Hcall : _callingNode once_channel = None) by (vm_compute; reflexivity).
  assert (Hsub : subscribed_fn once_channel 9%nat).
  { exists 4%nat, 0%nat. eexists. split; [|split].
    - exists [0; 1]%nat. split; [concrete_chain|apply list_elem_of_here].
    - vm_compute. reflexivity.
    - reflexivity. }
  split; [vm_compute; reflexivity|].
  split; [exact Hch|]. split; [exact Hcall|]. split; [exact Hsub|].
  destruct (deferred_unsubscribe_takes_effect Sample.client 0 9 once_published
              once_channel reachable_once_published Hch Hcall Hsub 0%nat)
    as (ch' & H1 & H2 & _).
  exists ch'. split; [exact H1|exact H2].
Defined.

(** [once] asks to be unsubscribed while it is called: the call returns
    [false] (nothing is thrown) and queues the callback; [spy] is called
    all the same. After the callbacks have run, a publish calls [spy]
    only. *)
Lemma publish_after_deferred_unsubscribe :
  (w1 ← PubSub_publish Sample.client 30 "foo" [] once;
   w2 ← event_loop Sample.client 30 w1;
   w3 ← PubSub_publish Sample.client 30 "foo" [] w2;
   Some (map call_fn (calls w1), console w1, timers w1, timers w2,
         map call_fn (calls w3)))
  = Some ([9; 1]%nat, [], [TimerUnsubscribe 0 9], [], [9; 1; 1]%nat).
Proof. vm_compute. reflexivity. Qed.

(** ** Subscribing during a publish, on two samples *)

(** [late] subscribes [spy] at the default priority while the publish
    is calling it in that bucket: [spy] is put after [late] and is called
    by the same publish. [early] subscribes [spy] at priority 0 while the
    publish is in bucket 4: the publish is past bucket 0 and does not
    call [spy]; the next publish calls it first, and [early], subscribing
    it again, throws the duplicate-subscriber error, which is logged. *)
Lemma publish_late_and_early :
  outcome (exec Sample.client 30 (caller []) late)
    = Some (None, [8; 1]%nat, []) ∧
  outcome (exec Sample.client 30 (caller []) early)
    = Some (None, [10%nat], []) ∧
  outcome (exec Sample.client 30
             (Publish "foo" [] (λ _, Publish "foo" [] (λ _, Return))) early)
    = Some (None, [10; 1; 10]%nat,
            [mkLog 0 0 (DuplicateSubscriber 1 "foo")]).
Proof. repeat split; vm_compute; reflexivity. Qed.

(** ** The registry after an unsubscribe *)

(** X3: [PubSub.unsubscribe] on a name of the registry leaves the channel
    object with its buckets in order; [hasSubscribers] is false exactly
    when no function is subscribed; the name is deleted exactly when the
    call removed a node and no function is subscribed any more, and a
    publish under a deleted name does nothing. Under a name the registry
    does not have, [unsubscribe] returns [false] and changes nothing. *)
Theorem unsubscribe_destroys_empty_channel (P : Program) (name : string)
    (f : Function) (w : World) (c : nat) (ch : Channel) :
  reachable P w → _channels w !! name = Some c → heap w !! c = Some ch →
  (∃ ch', heap (PubSub_unsubscribe P name f w).1 !! c = Some ch' ∧
     (hasSubscribers ch' = false ↔ ∀ g, ¬ subscribed_fn ch' g) ∧
     (_channels (PubSub_unsubscribe P name f w).1 !! name = None ↔
        (PubSub_unsubscribe P name f w).2 = true ∧
        ∀ g, ¬ subscribed_fn ch' g)) ∧
  (∀ w' fuel args, _channels w' !! name = None →
     PubSub_publish P (S fuel) name args w' = Some w') ∧
  (∀ other, _channels w !! other = None →
     PubSub_unsubscribe P other f w = (w, false)).
Proof.
  intros Hr Hname Hch. pose proof (reachable_wf P w Hr) as Hwf.
  destruct (proj1 Hwf _ _ Hch) as [bs Hbs].
  split; [|split].
  - destruct (Channel_unsubscribe_repr P ch bs c f Hbs) as [bs' Hbs'].
    unfold PubSub_unsubscribe. rewrite Hname, Hch.
    destruct (Channel_unsubscribe P c f ch) as [[ch' ts] b]. simpl in Hbs'.
    pose proof (hasSubscribers_subscribed P ch' bs' Hbs') as Hhas.
    exists ch'.
    destruct b; simpl; [destruct (hasSubscribers ch') eqn:Hs; simpl|].
    + rewrite lookup_insert_eq, Hname. split; [done|]. split; [done|].
      split; [done|]. intros [_ Hno]. apply Hhas in Hno. done.
    + rewrite lookup_insert_eq, lookup_delete_eq. split; [done|].
      split; [done|]. split; [|done]. intros _. split; [done|]. by apply Hhas.
    + rewrite lookup_insert_eq, Hname. split; [done|]. split; [done|].
      split; [done|]. by intros [? _].
  - intros w' fuel args Hnone. by rewrite PubSub_publish_unfold, Hnone.
  - intros other Hnone. unfold PubSub_unsubscribe. by rewrite Hnone.
Qed.

Lemma reachable_alone : reachable Sample.client alone.
Proof.
  apply (reachable_subscribed Sample.client "foo" 0%nat
           (Some (mkSubPriority None)) VUndefined new_PubSub alone (inr 0%nat)
           (reachable_new _)).
  vm_compute. reflexivity.
Qed.

Lemma unsubscribe_destroys_empty_channel_witness :
  reachable Sample.client alone ∧ _channels alone !! "foo" = Some 0%nat ∧
  (PubSub_unsubscribe Sample.client "foo" 0 alone).2 = true ∧
  _channels (PubSub_unsubscribe Sample.client "foo" 0 alone).1 !! "foo" = None ∧
  PubSub_unsubscribe Sample.client "bar" 0 alone = (alone, false).
Proof.
  assert (Hname : _channels alone !! "foo" = Some 0%nat)
    by (vm_compute; reflexivity).
  assert (Hch : heap alone !! 0%nat
                = Some (default (new_Channel "") (heap alone !! 0%nat)))
    by (vm_compute; reflexivity).
  split; [exact reachable_alone|]. split; [exact Hname|].
  split; [vm_compute; reflexivity|]. split; [vm_compute; reflexivity|].
  apply (proj2 (proj2 (unsubscribe_destroys_empty_channel Sample.client "foo"
                         0 alone 0 _ reachable_alone Hname Hch)) "bar").
  vm_compute. reflexivity.
Defined.

(** ** The hash *)



(** ** The state of a channel object *)

(** What every channel object keeps: the mask is one of idle (0),
    interrupted (1), publishing (2), publishing and interrupted (3); a
    node is the calling node only while the channel is publishing; there
    are at most five buckets. *)
Record tidy_channel (ch : Channel) : Prop := mkTidy {
  tidy_mask : 0 ≤ _commandMask ch ≤ 3;
  tidy_calling :
    _callingNode ch ≠ None → Z.land (_commandMask ch) PUBLISHING ≠ 0;
  tidy_buckets : (length (_priorityMatrix ch) ≤ 5)%nat
}.

(** Every channel object is tidy, and a channel of the registry has the
    name it is kept under as its [namespace]. *)
Definition tidy (w : World) : Prop :=
  (∀ c ch, heap w !! c = Some ch → tidy_channel ch) ∧
  (∀ name c ch, _channels w !! name = Some c → heap w !! c = Some ch →
     namespace ch = name).

Lemma resolve_priority_le priority : (resolve_priority priority ≤ 4)%nat.
Proof. unfold resolve_priority. destruct priority as [[[p|]]|]; lia. Qed.

Lemma mask_cases m : 0 ≤ m ≤ 3 → m = 0 ∨ m = 1 ∨ m = 2 ∨ m = 3.
Proof. lia. Qed.

Lemma tidy_channel_same ch ch' :
  tidy_channel ch →
  _commandMask ch' = _commandMask ch → _callingNode ch' = _callingNode ch →
  (length (_priorityMatrix ch') ≤ 5)%nat →
  tidy_channel ch'.
Proof. intros [H1 H2 H3] Hm Hc Hl. split; by rewrite ?Hm, ?Hc. Qed.

Lemma tidy_new_Channel name : tidy_channel (new_Channel name).
Proof. split; simpl; [lia|done|lia]. Qed.

Lemma tidy_set_channel w c ch ch' :
  tidy w → heap w !! c = Some ch → tidy_channel ch' →
  namespace ch' = namespace ch → tidy (set_channel c ch' w).
Proof.
  intros [H1 H2] Hch Ht Hn. split; simpl.
  - intros c0 ch0. destruct (decide (c = c0)) as [->|].
    + rewrite lookup_insert_eq. by intros [= <-].
    + rewrite lookup_insert_ne by done. apply H1.
  - intros name c0 ch0 Hname. destruct (decide (c = c0)) as [->|].
    + rewrite lookup_insert_eq. intros [= <-]. rewrite Hn. eauto.
    + rewrite lookup_insert_ne by done. eauto.
Qed.

Lemma Channel_subscribe_fields P f priority context ch ch' r :
  Channel_subscribe P f priority context ch = Some (ch', r) →
  _commandMask ch' = _commandMask ch ∧ _callingNode ch' = _callingNode ch ∧
  namespace ch' = namespace ch ∧
  (length (_priorityMatrix ch')
   ≤ length (_priorityMatrix ch) `max` S priority)%nat.
Proof.
  unfold Channel_subscribe. destruct (existsb _ _).
  { intros [= <- <-]. split_and!; try done. lia. }
  destruct (array_get _ _).
  - destruct (last_from _ _ _); [|done]. intros [= <- <-]. simpl.
    split_and!; try done. lia.
  - intros [= <- <-]. simpl. split_and!; try done.
    by rewrite array_set_length.
Qed.

Lemma unlink_fields n nd ch :
  _callingNode (unlink n nd ch) = _callingNode ch ∧
  namespace (unlink n nd ch) = namespace ch.
Proof. unfold unlink. by destruct (node_prev nd). Qed.

Lemma Channel_unsubscribe_fields P ch bs self f :
  repr P ch bs →
  _callingNode (Channel_unsubscribe P self f ch).1.1 = _callingNode ch ∧
  namespace (Channel_unsubscribe P self f ch).1.1 = namespace ch ∧
  length (_priorityMatrix (Channel_unsubscribe P self f ch).1.1)
    = length (_priorityMatrix ch).
Proof.
  intros Hbs. unfold Channel_unsubscribe.
  destruct (_fnHashMap ch !! hashFn P f) as [fa|] eqn:Hfa; [|done].
  destruct (find_fn _ _ _ _) as [[idx n]|] eqn:Hfind; [|done].
  destruct (_ && _); [done|]. simpl.
  destruct (nodes ch !! n) as [nd|] eqn:Hn; [|done].
  destruct (unlink_fields n nd ch) as [-> ->]. split; [done|]. split; [done|].
  rewrite unlink_matrix. destruct (node_prev nd); [done|].
  rewrite array_set_length.
  apply find_fn_Some in Hfind as (_ & Hidx & _).
  destruct (pay_index P _ _ _ _ (proj2 Hbs) _ _ Hfa) as (_ & _ & Hall).
  destruct (Hall n) as (s & p & Hi & _ & Hin);
    [by eapply list_elem_of_lookup_2|].
  apply info_Some in Hi as (nd' & Hn' & _ & Hp).
  assert (nd' = nd) as -> by congruence. subst p.
  pose proof (repr_bucket_lt P ch bs _ _ Hbs Hin). lia.
Qed.

Lemma PubSub_subscribe_tidy P channelName f priority context w w' r :
  wf_world P w → tidy w →
  PubSub_subscribe P channelName f priority context w = Some (w', r) →
  tidy w'.
Proof.
  intros Hwf Ht. unfold PubSub_subscribe.
  set (w1 := match _channels w !! channelName with
             | Some _ => w
             | None => _
             end).
  assert (Hw1 : tidy w1).
  { unfold w1. destruct (_channels w !! channelName) as [c|] eqn:Hc; [done|].
    set (c := fresh (dom (heap w))).
    assert (Hfresh : heap w !! c = None) by apply not_elem_of_dom, is_fresh.
    destruct Ht as [H1 H2]. split; simpl.
    - intros c0 ch0. destruct (decide (c = c0)) as [->|].
      + rewrite lookup_insert_eq. intros [= <-]. apply tidy_new_Channel.
      + rewrite lookup_insert_ne by done. apply H1.
    - intros name c0 ch0. destruct (decide (channelName = name)) as [->|].
      + rewrite lookup_insert_eq. intros [= <-].
        rewrite lookup_insert_eq. by intros [= <-].
      + rewrite lookup_insert_ne by done. intros Hname.
        destruct (decide (c = c0)) as [->|].
        * destruct (proj2 Hwf _ _ Hname) as [? E]. by rewrite Hfresh in E.
        * rewrite lookup_insert_ne by done. eauto. }
  destruct (_channels w1 !! channelName) as [c0|]; [|done]. simpl.
  destruct (heap w1 !! c0) as [ch0|] eqn:H0; [|done]. simpl.
  destruct (Channel_subscribe _ _ _ _ _) as [[ch0' [e|]]|] eqn:Hs; [| |done];
    simpl; intros [= <- <-]; [done|].
  destruct (Channel_subscribe_fields P _ _ _ _ _ _ Hs) as (Hm & Hc & Hn & Hl).
  eapply tidy_set_channel; [done..| |done].
  eapply tidy_channel_same; [by apply (proj1 Hw1 _ _ H0)|done..|].
  pose proof (tidy_buckets _ (proj1 Hw1 _ _ H0)).
  pose proof (resolve_priority_le priority). lia.
Qed.

Lemma PubSub_unsubscribe_tidy P channelName f w :
  wf_world P w → tidy w → tidy (PubSub_unsubscribe P channelName f w).1.
Proof.
  intros Hwf Ht. unfold PubSub_unsubscribe.
  destruct (_channels w !! channelName) as [c|] eqn:Hc; [|done].
  destruct (heap w !! c) as [ch|] eqn:Hch; [|done].
  destruct (proj1 Hwf _ _ Hch) as [bs Hbs].
  pose proof (Channel_unsubscribe_mask P c f ch) as Hm.
  destruct (Channel_unsubscribe_fields P ch bs c f Hbs) as (Hcn & Hn & Hl).
  destruct (Channel_unsubscribe P c f ch) as [[ch' ts] b]. simpl in *.
  assert (Ht1 : tidy (setTimeout ts (set_channel c ch' w))).
  { apply (tidy_set_channel w c ch ch' Ht Hch); [|done].
    eapply tidy_channel_same; [by apply (proj1 Ht _ _ Hch)|done..|].
    rewrite Hl. apply (proj1 Ht _ _ Hch). }
  destruct (b && negb (hasSubscribers ch')); [|done]. simpl.
  destruct Ht1 as [H1 H2]. split; [done|]. simpl.
  intros name c0 ch0 [_ Hname]%lookup_delete_Some. by apply H2.
Qed.

Lemma stopPropagation_tidy c w : tidy w → tidy (stopPropagation c w).
Proof.
  intros Ht. unfold stopPropagation.
  destruct (heap w !! c) as [ch|] eqn:Hch; [|done].
  apply (tidy_set_channel w c ch _ Ht Hch); [|done].
  destruct (proj1 Ht _ _ Hch) as [H1 H2 H3]. split; simpl; [|by rewrite land_lor_SIG_INT_PUBLISHING|done].
  destruct (mask_cases _ H1) as [-> | [-> | [-> | ->]]]; vm_compute; split; discriminate.
Qed.

(** The channel is publishing and is calling no node: the state at the
    tests of the two loops of [Channel.publish]. *)
Definition at_loop_head (c : nat) (w : World) : Prop :=
  ∃ ch, heap w !! c = Some ch ∧ Z.land (_commandMask ch) PUBLISHING ≠ 0 ∧
        _callingNode ch = None.

Section Tidy.

Variable P : Program.

Lemma exec_tidy fuel :
  (∀ p w w' r, wf_world P w → tidy w →
     exec P fuel p w = Some (w', r) → tidy w') ∧
  (∀ name args w w', wf_world P w → tidy w →
     PubSub_publish P fuel name args w = Some w' → tidy w') ∧
  (∀ c args w w', wf_world P w → tidy w →
     Channel_publish P fuel c args w = Some w' → tidy w') ∧
  (∀ c idx args w w', wf_world P w → tidy w → at_loop_head c w →
     for_loop P fuel c idx args w = Some w' → tidy w') ∧
  (∀ c idx node args w w', wf_world P w → tidy w → at_loop_head c w →
     while_loop P fuel c idx node args w = Some w' → tidy w').
Proof.
  induction fuel as [|fuel (IHe & IHp & IHc & IHf & IHw)];
    [by repeat split|].
  assert (Hexit : ∀ c w ch, tidy w → heap w !! c = Some ch →
            _callingNode ch = None →
            tidy (set_channel c
                    (set_commandMask (Z.land (_commandMask ch) CLEAR_BITS) ch)
                    w)).
  { intros c w ch Ht Hch Hcall. apply (tidy_set_channel w c ch _ Ht Hch); [|done].
    destruct (proj1 Ht _ _ Hch) as [H1 H2 H3].
    split; simpl; [|by rewrite Hcall|done]. rewrite Z.land_0_r. lia. }
  split_and!.
  - intros p w w' r Hwf Ht. rewrite exec_unfold. destruct p.
    + by intros [= <- <-].
    + by intros [= <- <-].
    + destruct (PubSub_subscribe P _ _ _ _ w) as [[w1 r1]|] eqn:E; [|done].
      destruct (PubSub_subscribe_wf P channelName f priority context w Hwf)
        as (w1' & r1' & E' & Hwf1).
      assert (w1' = w1) as -> by congruence.
      apply IHe; [done|].
      exact (PubSub_subscribe_tidy P _ _ _ _ _ _ _ Hwf Ht E).
    + pose proof (PubSub_unsubscribe_wf P channelName f w Hwf) as Hwf1.
      pose proof (PubSub_unsubscribe_tidy P channelName f w Hwf Ht) as Ht1.
      destruct (PubSub_unsubscribe P channelName f w) as [w1 b]. eauto.
    + destruct (PubSub_publish P fuel channelName args w) as [w1|] eqn:E;
        [|done].
      apply IHe; [exact (proj1 (proj2 (exec_wf P fuel)) _ _ _ _ Hwf E)|].
      exact (IHp _ _ _ _ Hwf Ht E).
    + apply IHe; [by apply wf_stopPropagation|by apply stopPropagation_tidy].
  - intros name args w w' Hwf Ht. rewrite PubSub_publish_unfold.
    destruct (_channels w !! name); [eauto|]. by intros [= <-].
  - intros c args w w' Hwf Ht. rewrite Channel_publish_unfold.
    destruct (heap w !! c) as [ch|] eqn:Hch; [|done]. simpl.
    destruct (proj1 Hwf _ _ Hch) as [bs Hbs].
    case_bool_decide as Hp; [by intros [= <-]|].
    destruct (proj1 Ht _ _ Hch) as [H1 H2 H3].
    assert (Hcall : _callingNode ch = None).
    { destruct (_callingNode ch) eqn:E; [|done]. by destruct H2. }
    apply IHf.
    + by eapply wf_set_channel.
    + apply (tidy_set_channel w c ch _ Ht Hch); [|done].
      split; simpl; [|by rewrite Hcall|done].
      destruct (mask_cases _ H1) as [-> | [-> | [-> | ->]]]; vm_compute;
        split; discriminate.
    + eexists. simpl. rewrite lookup_insert_eq. split; [done|]. simpl.
      split; [|done]. apply land_lor_PUBLISHING.
  - intros c idx args w w' Hwf Ht (ch & Hch & Hpub & Hcall).
    rewrite for_loop_unfold, Hch. simpl.
    case_bool_decide; [apply IHw; try done; by exists ch|].
    intros [= <-]. by apply Hexit.
  - intros c idx node args w w' Hwf Ht (ch & Hch & Hpub & Hcall).
    rewrite while_loop_unfold.
    destruct node as [n|]; [|apply IHf; try done; by exists ch].
    rewrite Hch. simpl.
    destruct (proj1 Hwf _ _ Hch) as [bs Hbs].
    case_bool_decide; [intros [= <-]; by apply Hexit|].
    destruct (nodes ch !! n) as [nd|] eqn:Hn; [|done]. simpl.
    set (w2 := record_call _ _).
    assert (Hwf2 : wf_world P w2)
      by (by eapply wf_record_call, wf_set_channel).
    assert (Ht2 : tidy w2).
    { apply (tidy_set_channel w c ch _ Ht Hch); [|done].
      destruct (proj1 Ht _ _ Hch) as [H1 H2 H3]. by split. }
    assert (Hpub2 : publishing c w2).
    { eexists. split; [simpl; by rewrite lookup_insert_eq|done]. }
    destruct (exec P fuel _ w2) as [[w3 r]|] eqn:He; [|done]. simpl.
    pose proof (proj1 (exec_wf P fuel) _ _ _ _ Hwf2 He) as Hwf3.
    pose proof (IHe _ _ _ _ Hwf2 Ht2 He) as Ht3.
    pose proof (keeps_publishing _ _ _
                  (proj1 (exec_keeps P c fuel) _ _ _ _ Hpub2 He) Hpub2)
      as (ch3 & Hch3 & Hp3).
    set (w4 := match r with Some err => _ | None => w3 end).
    assert (H4 : wf_world P w4 ∧ tidy w4 ∧ heap w4 = heap w3)
      by (unfold w4; by destruct r).
    destruct H4 as (Hwf4 & Ht4 & Hh4). rewrite Hh4, Hch3. simpl.
    destruct (nodes ch3 !! n) as [nd4|] eqn:Hn4; [|done]. simpl.
    rewrite <- Hh4 in Hch3.
    destruct (proj1 Hwf4 _ _ Hch3) as [bs4 Hbs4].
    apply IHw.
    + by eapply wf_set_channel.
    + apply (tidy_set_channel w4 c ch3 _ Ht4 Hch3); [|done].
      destruct (proj1 Ht4 _ _ Hch3) as [H1 H2 H3]. by split.
    + eexists. split; [simpl; by rewrite lookup_insert_eq|done].
Qed.

Lemma run_timer_tidy fuel t w w' :
  wf_world P w → tidy w → run_timer P fuel t w = Some w' → tidy w'.
Proof.
  intros Hwf Ht. destruct t as [c args|c f]; simpl.
  - apply (proj1 (proj2 (proj2 (exec_tidy fuel))) _ _ _ _ Hwf Ht).
  - destruct (heap w !! c) as [ch|] eqn:Hch; [|done]. simpl.
    destruct (proj1 Hwf _ _ Hch) as [bs Hbs].
    pose proof (Channel_unsubscribe_mask P c f ch) as Hm.
    destruct (Channel_unsubscribe_fields P ch bs c f Hbs) as (Hcn & Hn & Hl).
    destruct (Channel_unsubscribe P c f ch) as [[ch' ts] b]. simpl in *.
    intros [= <-].
    apply (tidy_set_channel w c ch ch' Ht Hch); [|done].
    eapply tidy_channel_same; [by apply (proj1 Ht _ _ Hch)|done..|].
    rewrite Hl. apply (proj1 Ht _ _ Hch).
Qed.

Lemma reachable_tidy w : reachable P w → tidy w.
Proof.
  induction 1 as [|w fuel p w' r Hr IH He|w fuel t ts w' Hr IH Ht Hrun].
  - split; intros ? ?; simpl; by rewrite ?lookup_empty.
  - apply (proj1 (exec_tidy fuel) _ _ _ _ (reachable_wf P w Hr) IH He).
  - apply (run_timer_tidy fuel t (set_timers ts w) w'); [|done|done].
    by apply (reachable_wf P w Hr).
Qed.

End Tidy.

(** ** The buckets after an unsubscribe *)

Lemma filter_all {A} (Q : A → Prop) `{∀ x, Decision (Q x)} (l : list A) :
  (∀ x, x ∈ l → Q x) → filter Q l = l.
Proof.
  induction l as [|x l IH]; intros Hall; [done|].
  rewrite filter_cons_True by (apply Hall; set_solver).
  f_equal. apply IH. intros y Hy. apply Hall. set_solver.
Qed.

(** In the buckets, the node that holds a function is the only one that
    holds it. *)
Lemma holds_fn_unique P ch bs f n nd :
  repr P ch bs → nodes ch !! n = Some nd → n ∈ bs (node_priority nd) →
  node_fn nd = f →
  ∀ i m, m ∈ bs i → holds_fn (nodes ch) f m = true ↔ m = n.
Proof.
  intros Hbs Hn Hin Hf i m Hm. unfold holds_fn. split.
  - destruct (nodes ch !! m) as [ndm|] eqn:Hndm; [|done].
    intros Hh%bool_decide_eq_true.
    destruct (repr_priority P _ _ _ _ Hbs Hm) as (ndm' & Hndm' & Hp).
    assert (ndm' = ndm) as -> by congruence. subst i.
    assert (Hi : info (nodes ch) n = Some (node_subscription nd, node_priority nd))
      by (apply info_Some; eauto).
    assert (Him : info (nodes ch) m
                  = Some (node_subscription ndm, node_priority ndm))
      by (apply info_Some; eauto).
    symmetry.
    apply (pay_fn P _ _ _ _ (proj2 Hbs) _ _ _ _ _ _ Hi Him Hin Hm).
    unfold node_fn in *. congruence.
  - intros ->. rewrite Hn. by apply bool_decide_eq_true.
Qed.

Lemma holds_fn_registered P ch bs f i m :
  repr P ch bs → m ∈ bs i → holds_fn (nodes ch) f m = true →
  registered ch bs f.
Proof.
  intros Hbs Hm. unfold holds_fn.
  destruct (nodes ch !! m) as [ndm|] eqn:Hndm; [|done].
  intros Hh%bool_decide_eq_true. exists m, ndm. split; [done|]. split; [|done].
  destruct (repr_priority P _ _ _ _ Hbs Hm) as (ndm' & Hndm' & Hp).
  assert (ndm' = ndm) as -> by congruence. by subst i.
Qed.

(** [Channel.unsubscribe] on a channel that is calling no node: every
    bucket keeps its nodes in their order, but for the node that holds
    the function; nothing is handed to [setTimeout]; the result tells
    whether the function was subscribed. *)
Lemma Channel_unsubscribe_buckets P ch bs self f :
  repr P ch bs → _callingNode ch = None →
  ∃ ch' b bs',
    Channel_unsubscribe P self f ch = (ch', [], b) ∧ repr P ch' bs' ∧
    (∀ i, bs' i = filter (λ m, holds_fn (nodes ch) f m = false) (bs i)) ∧
    (b = true ↔ registered ch bs f) ∧ (b = false → ch' = ch) ∧
    ¬ registered ch' bs' f.
Proof.
  intros Hbs Hcall.
  destruct (registered_dec P ch bs f Hbs) as [(n & nd & Hn & Hin & Hf)|Hnew].
  - destruct (Channel_unsubscribe_evict P ch bs self f n nd Hbs Hn Hin Hf)
      as (ch' & l1 & l2 & E & Hl & Hr' & _).
    { rewrite Hcall. by intros [? _]. }
    pose proof (holds_fn_unique P ch bs f n nd Hbs Hn Hin Hf) as Hu.
    pose proof (pay_NoDup P _ _ _ _ (node_priority nd) (proj2 Hbs)) as Hnd.
    rewrite Hl in Hnd.
    apply NoDup_app in Hnd as (_ & Hd & (Hn2 & _)%NoDup_cons).
    assert (Hbs' : ∀ i, bucket_set bs (node_priority nd) (l1 ++ l2) i
                        = filter (λ m, holds_fn (nodes ch) f m = false) (bs i)).
    { intros i. unfold bucket_set. case_decide as Hi.
      - subst i. rewrite Hl, filter_app, filter_cons_False.
        + rewrite !filter_all; [done| |].
          * intros m Hm. apply not_true_iff_false.
            rewrite (Hu (node_priority nd) m) by (rewrite Hl; set_solver).
            by intros ->.
          * intros m Hm. apply not_true_iff_false.
            rewrite (Hu (node_priority nd) m) by (rewrite Hl; set_solver).
            intros ->. apply (Hd _ Hm). set_solver.
        + apply not_false_iff_true. by apply (Hu (node_priority nd)).
      - rewrite filter_all; [done|]. intros m Hm. apply not_true_iff_false.
        rewrite (Hu i m Hm). intros ->.
        destruct (repr_priority P _ _ _ _ Hbs Hm) as (nd' & Hn' & Hp).
        congruence. }
    destruct (Channel_unsubscribe_gone P ch bs self f n nd Hbs Hn Hin Hf)
      as (ch2 & bs2 & E2 & Hr2 & Hmem2 & Hgone).
    { rewrite Hcall. by intros [? _]. }
    assert (ch2 = ch') as -> by congruence.
    exists ch', true, (bucket_set bs (node_priority nd) (l1 ++ l2)).
    split; [done|]. split; [done|]. split; [done|].
    split; [split; [intros _; by exists n, nd|done]|]. split; [done|].
    intros Hreg. apply Hgone.
    apply (subscribed_fn_registered P ch' _ f Hr2).
    by apply (subscribed_fn_registered P ch' _ f Hr').
  - exists ch, false, bs.
    rewrite (Channel_unsubscribe_absent P ch bs self f Hbs Hnew).
    split; [done|]. split; [done|]. split; [|split; [|done]].
    + intros i. rewrite filter_all; [done|]. intros m Hm.
      apply not_true_iff_false. intros Hh. apply Hnew.
      by eapply holds_fn_registered.
    + split; [done|]. intros Hreg. by destruct Hnew.
Qed.

Lemma bucket_nodes_repr P ch bs i l :
  repr P ch bs → bucket_nodes ch i l ↔ l = bs i.
Proof.
  intros [HL _]. unfold bucket_nodes. split.
  - intros Hl. symmetry.
    apply (lseg_inj _ _ _ _ _ _ (links_chain _ _ _ HL i) Hl).
  - intros ->. apply HL.
Qed.

Lemma set_channel_id c ch w : heap w !! c = Some ch → set_channel c ch w = w.
Proof.
  intros H. destruct w. unfold set_channel. simpl in *. by rewrite insert_id.
Qed.

Lemma channel_state_tidy P w c ch :
  reachable P w → heap w !! c = Some ch → tidy_channel ch.
Proof. intros Hr Hch. by apply (proj1 (reachable_tidy P w Hr) c ch). Qed.

(** ** The state machine of a channel, in every world *)

(** X5: in every world a client can bring about, the mask of a channel is
    0 (idle), 1 (interrupted), 2 (publishing) or 3 (publishing and
    interrupted); a channel that records a calling node is publishing,
    so an idle or an interrupted channel calls no node; and the channel
    kept under a name has that name as its [namespace]. *)
Theorem channel_state_is_one_of_four (P : Program) (w : World) (c : nat)
    (ch : Channel) :
  reachable P w → heap w !! c = Some ch →
  (_commandMask ch = 0 ∨ _commandMask ch = SIG_INT ∨
   _commandMask ch = PUBLISHING ∨
   _commandMask ch = Z.lor PUBLISHING SIG_INT) ∧
  (Z.land (_commandMask ch) PUBLISHING = 0 → _callingNode ch = None) ∧
  (∀ name, _channels w !! name = Some c → namespace ch = name).
Proof.
  intros Hr Hch. destruct (reachable_tidy P w Hr) as [H1 H2].
  destruct (H1 _ _ Hch) as [Hm Hc Hb]. split; [|split].
  - by apply mask_cases.
  - intros Hidle. destruct (_callingNode ch) as [n|]; [|done].
    by destruct Hc.
  - intros name Hname. by apply (H2 name c ch).
Qed.

Lemma channel_state_is_one_of_four_witness :
  reachable Sample.client once_published ∧
  heap once_published !! 0%nat = Some once_channel ∧
  _commandMask once_channel = 0 ∧ _callingNode once_channel = None ∧
  namespace once_channel = "foo".
Proof.
  assert (Hch : heap once_published !! 0%nat = Some once_channel)
    by (vm_compute; reflexivity).
  destruct (channel_state_is_one_of_four Sample.client once_published 0
              once_channel reachable_once_published Hch) as (_ & H2 & H3).
  split; [exact reachable_once_published|]. split; [exact Hch|].
  split; [vm_compute; reflexivity|]. split.
  - apply H2. vm_compute. reflexivity.
  - apply H3. vm_compute. reflexivity.
Defined.

(** ** Buckets and priorities *)



(** ** A publish ends with the channel idle *)




(** ** Subscribing twice, or not *)

(** The three ways of [PubSub.subscribe]: the function is subscribed to
    the channel of that name, or it is not, or there is no such
    channel. *)
Lemma PubSub_subscribe_cases P name f priority context w w' r :
  wf_world P w →
  PubSub_subscribe P name f priority context w = Some (w', r) →
  (∃ c ch bs, _channels w !! name = Some c ∧ heap w !! c = Some ch ∧
     repr P ch bs ∧ registered ch bs f ∧ w' = w ∧
     r = inl (DuplicateSubscriber f (namespace ch))) ∨
  (∃ c ch bs ch', _channels w !! name = Some c ∧ heap w !! c = Some ch ∧
     repr P ch bs ∧ ¬ registered ch bs f ∧
     Channel_subscribe P f (resolve_priority priority) context ch
       = Some (ch', None) ∧
     w' = set_channel c ch' w ∧ r = inr c) ∨
  (∃ ch', _channels w !! name = None ∧
     heap w !! fresh (dom (heap w)) = None ∧
     Channel_subscribe P f (resolve_priority priority) context
       (new_Channel name) = Some (ch', None) ∧
     w' = set_channel (fresh (dom (heap w))) ch'
            (set_channels (<[name := fresh (dom (heap w))]> (_channels w))
               (set_channel (fresh (dom (heap w))) (new_Channel name) w)) ∧
     r = inr (fresh (dom (heap w)))).
Proof.
  intros Hwf. unfold PubSub_subscribe.
  destruct (_channels w !! name) as [c|] eqn:Hc.
  - rewrite Hc. simpl. destruct (proj2 Hwf _ _ Hc) as [ch Hch].
    rewrite Hch. simpl. destruct (proj1 Hwf _ _ Hch) as [bs Hbs].
    destruct (registered_dec P ch bs f Hbs) as [Hreg|Hnew].
    + rewrite (Channel_subscribe_duplicate P ch bs f _ _ Hbs Hreg). simpl.
      intros [= <- <-]. left. by exists c, ch, bs.
    + destruct (Channel_subscribe_fresh P ch bs f (resolve_priority priority)
                  context Hbs Hnew) as (ch' & E & _).
      rewrite E. simpl. intros [= <- <-]. right. left.
      by exists c, ch, bs, ch'.
  - simpl. rewrite lookup_insert_eq. simpl. rewrite lookup_insert_eq. simpl.
    assert (Hnew : ¬ registered (new_Channel name) (λ _, []) f).
    { intros (n & nd & _ & Hin & _). by apply elem_of_nil in Hin. }
    destruct (Channel_subscribe_fresh P (new_Channel name) (λ _, []) f
                (resolve_priority priority) context (repr_new P name) Hnew)
      as (ch' & E & _).
    rewrite E. simpl. intros [= <- <-]. right. right. exists ch'.
    split; [done|]. split; [apply not_elem_of_dom, is_fresh|done].
Qed.

(** X8: [PubSub.subscribe] always returns or throws, and it throws
    exactly when the function is subscribed to the channel of that name:
    a function with the same text, and so the same hash, as a subscribed
    one is accepted. When it returns, the name leads to the channel it
    returned, the function is subscribed there, and every function that
    was subscribed still is. *)
Theorem subscribe_throws_exactly_for_a_subscribed_function (P : Program)
    (w : World) (name : string) (f : Function)
    (priority : option SubPriority) (context : value) :
  reachable P w →
  ∃ w' r, PubSub_subscribe P name f priority context w = Some (w', r) ∧
    ((∃ e, r = inl e) ↔
     ∃ c ch, _channels w !! name = Some c ∧ heap w !! c = Some ch ∧
             subscribed_fn ch f) ∧
    (∀ c, r = inr c →
       ∃ ch', _channels w' !! name = Some c ∧ heap w' !! c = Some ch' ∧
              subscribed_fn ch' f ∧
              ∀ ch g, heap w !! c = Some ch → subscribed_fn ch g →
                      subscribed_fn ch' g).
Proof.
  intros Hr. pose proof (reachable_wf P w Hr) as Hwf.
  destruct (PubSub_subscribe_wf P name f priority context w Hwf)
    as (w' & r & Hs & Hwf').
  exists w', r. split; [done|].
  destruct (PubSub_subscribe_cases P name f priority context w w' r Hwf Hs)
    as [(c & ch & bs & Hc & Hch & Hbs & Hreg & -> & ->)
       |[(c & ch & bs & ch' & Hc & Hch & Hbs & Hnew & E & -> & ->)
        |(ch' & Hc & Hfresh & E & -> & ->)]].
  - split; [|done]. split; [|by eauto]. intros _. exists c, ch.
    split; [done|]. split; [done|].
    by apply (subscribed_fn_registered P ch bs f Hbs).
  - split.
    { split; [by intros [e ?]|]. intros (c1 & ch1 & Hc1 & Hch1 & Hsub).
      assert (c1 = c) as -> by congruence.
      assert (ch1 = ch) as -> by congruence.
      by apply (subscribed_fn_registered P ch bs f Hbs) in Hsub. }
    intros c0 [= <-].
    destruct (PubSub_subscribe_subscribed P name f priority context w _ c
                Hwf Hs) as (ch1 & Hname1 & Hch1 & Hsub1).
    exists ch1. split; [done|]. split; [done|]. split; [done|].
    intros ch0 g Hch0 Hg. assert (ch0 = ch) as -> by congruence.
    simpl in Hch1. rewrite lookup_insert_eq in Hch1.
    injection Hch1 as <-.
    destruct (Channel_subscribe_fresh P ch bs f (resolve_priority priority)
                context Hbs Hnew) as (ch2 & E2 & Hr2 & _).
    assert (ch2 = ch') as -> by congruence.
    apply (subscribed_fn_registered P ch bs g Hbs) in Hg
      as (m & ndm & Hm & Hmin & Hmf).
    apply (subscribed_fn_registered P ch' _ g Hr2).
    assert (Hi : info (nodes ch') m
                 = Some (node_subscription ndm, node_priority ndm)).
    { rewrite (Channel_subscribe_info P ch bs f _ _ ch' None Hbs E).
      - apply info_Some. eauto.
      - unfold info. by rewrite Hm. }
    apply info_Some in Hi as (ndm' & Hm' & Hs' & Hp').
    exists m, ndm'. split; [done|]. split.
    + rewrite Hp'. unfold bucket_set. case_decide as Hi; [|done].
      rewrite <- Hi. set_solver.
    + unfold node_fn in *. by rewrite Hs'.
  - split.
    { split; [by intros [e ?]|]. intros (c1 & ch1 & Hc1 & _). congruence. }
    intros c0 [= <-].
    destruct (PubSub_subscribe_subscribed P name f priority context w _ _
                Hwf Hs) as (ch1 & Hname1 & Hch1 & Hsub1).
    exists ch1. split; [done|]. split; [done|]. split; [done|].
    intros ch0 g Hch0. congruence.
Qed.

Lemma subscribe_throws_exactly_for_a_subscribed_function_witness :
  reachable Sample.client mixed ∧
  hashFn Sample.client 7 = hashFn Sample.client 5 ∧
  ∃ w', PubSub_subscribe Sample.client "foo" 7
          (Some (mkSubPriority (Some 0))) VUndefined mixed
        = Some (w', inr 0%nat).
Proof.
  split; [exact reachable_mixed|]. split; [vm_compute; reflexivity|].
  destruct (subscribe_throws_exactly_for_a_subscribed_function Sample.client
              mixed "foo" 7%nat (Some (mkSubPriority (Some 0))) VUndefined
              reachable_mixed) as (w' & r & Hs & _ & _).
  exists w'. rewrite Hs. f_equal. f_equal.
  assert (E : (λ x, snd x) <$> PubSub_subscribe Sample.client "foo" 7
                (Some (mkSubPriority (Some 0))) VUndefined mixed
              = Some (inr 0%nat)) by (vm_compute; reflexivity).
  rewrite Hs in E. simpl in E. by injection E.
Defined.

(** ** Unsubscribing outside a publish *)

(** [PubSub.unsubscribe] on a channel that is calling no node. *)
Lemma PubSub_unsubscribe_buckets P name f w c ch bs :
  _channels w !! name = Some c → heap w !! c = Some ch → repr P ch bs →
  _callingNode ch = None →
  ∃ ch' b bs',
    Channel_unsubscribe P c f ch = (ch', [], b) ∧ repr P ch' bs' ∧
    (∀ i, bs' i = filter (λ m, holds_fn (nodes ch) f m = false) (bs i)) ∧
    (b = true ↔ registered ch bs f) ∧ ¬ registered ch' bs' f ∧
    PubSub_unsubscribe P name f w
      = (if b then
           if hasSubscribers ch'
           then set_channel c ch' w
           else set_channels (delete name (_channels w)) (set_channel c ch' w)
         else w, b).
Proof.
  intros Hname Hch Hbs Hcall.
  destruct (Channel_unsubscribe_buckets P ch bs c f Hbs Hcall)
    as (ch' & b & bs' & E & Hr' & Hf & Hb & Hsame & Hgone).
  exists ch', b, bs'. split; [done|]. split; [done|]. split; [done|].
  split; [done|]. split; [done|].
  unfold PubSub_unsubscribe. rewrite Hname, Hch, E, setTimeout_nil.
  destruct b; simpl.
  - by destruct (hasSubscribers ch').
  - rewrite (Hsame eq_refl). by rewrite set_channel_id.
Qed.

(** X9: [PubSub.unsubscribe] on a channel that is not publishing is never
    deferred: it returns [true] exactly when the function was subscribed,
    and otherwise changes nothing. Afterwards the function is not
    subscribed, and every bucket holds the nodes it held, in the same
    order, but for the node of that function; the nodes of functions
    with the same hash stay. *)
Theorem unsubscribe_outside_a_publish (P : Program) (name : string)
    (f : Function) (w : World) (c : nat) (ch : Channel) :
  reachable P w → _channels w !! name = Some c → heap w !! c = Some ch →
  Z.land (_commandMask ch) PUBLISHING = 0 →
  ∃ ch',
    heap (PubSub_unsubscribe P name f w).1 !! c = Some ch' ∧
    timers (PubSub_unsubscribe P name f w).1 = timers w ∧
    ((PubSub_unsubscribe P name f w).2 = true ↔ subscribed_fn ch f) ∧
    ((PubSub_unsubscribe P name f w).2 = false →
     (PubSub_unsubscribe P name f w).1 = w) ∧
    ¬ subscribed_fn ch' f ∧
    (∀ i l, bucket_nodes ch i l →
       bucket_nodes ch' i (filter (λ m, holds_fn (nodes ch) f m = false) l)).
Proof.
  intros Hr Hname Hch Hidle.
  destruct (proj1 (reachable_wf P w Hr) _ _ Hch) as [bs Hbs].
  assert (Hcall : _callingNode ch = None).
  { destruct (channel_state_tidy P w c ch Hr Hch) as [_ Hc _].
    destruct (_callingNode ch); [by destruct Hc|done]. }
  destruct (PubSub_unsubscribe_buckets P name f w c ch bs Hname Hch Hbs Hcall)
    as (ch' & b & bs' & E & Hr' & Hf & Hb & Hgone & ->).
  exists ch'. simpl. split_and!.
  - destruct b; [destruct (hasSubscribers ch')|]; simpl;
      rewrite ?lookup_insert_eq; try done.
    apply (f_equal (λ x, x.1.1)) in E. simpl in E.
    destruct (decide (registered ch bs f)) as [Hreg|Hnew].
    + apply Hb in Hreg. done.
    + rewrite (Channel_unsubscribe_absent P ch bs c f Hbs Hnew) in E.
      simpl in E. by subst ch'.
  - by destruct b; [destruct (hasSubscribers ch')|].
  - by rewrite (subscribed_fn_registered P ch bs f Hbs).
  - by intros ->.
  - by rewrite (subscribed_fn_registered P ch' bs' f Hr').
  - intros i l Hl. apply (bucket_nodes_repr P ch bs i l Hbs) in Hl as ->.
    apply (bucket_nodes_repr P ch' bs' i _ Hr'). by rewrite Hf.
Qed.

Lemma unsubscribe_outside_a_publish_witness :
  reachable Sample.client mixed ∧
  (PubSub_unsubscribe Sample.client "foo" 5 mixed).2 = true ∧
  ∃ ch', heap (PubSub_unsubscribe Sample.client "foo" 5 mixed).1 !! 0%nat
           = Some ch' ∧
         bucket_nodes ch' 0 [] ∧ bucket_nodes ch' 1 [0; 3]%nat.
Proof.
  assert (Hname : _channels mixed !! "foo" = Some 0%nat)
    by (vm_compute; reflexivity).
  assert (Hch : heap mixed !! 0%nat = Some mixed_channel)
    by (vm_compute; reflexivity).
  assert (Hidle : Z.land (_commandMask mixed_channel) PUBLISHING = 0)
    by (vm_compute; reflexivity).
  assert (H0 : bucket_nodes mixed_channel 0 [2%nat]) by concrete_chain.
  assert (H1 : bucket_nodes mixed_channel 1 [0; 3]%nat) by concrete_chain.
  destruct (unsubscribe_outside_a_publish Sample.client "foo" 5 mixed 0
              mixed_channel reachable_mixed Hname Hch Hidle)
    as (ch' & A1 & _ & _ & _ & _ & A6).
  split; [exact reachable_mixed|]. split; [vm_compute; reflexivity|].
  exists ch'. split; [exact A1|]. split.
  - exact (A6 0%nat _ H0).
  - exact (A6 1%nat _ H1).
Defined.

(** ** Subscribe, then unsubscribe *)

Lemma repr_ext P ch bs bs' : (∀ i, bs' i = bs i) → repr P ch bs → repr P ch bs'.
Proof.
  intros E [[H1 H2] [A1 A2 A3 A4 A5 A6 A7]]. split; split.
  - intros i. rewrite E. apply H1.
  - intros n nd Hn Hin. apply (H2 n nd Hn). by rewrite <- E.
  - intros i. rewrite E. apply A1.
  - intros i n. rewrite E. apply A2.
  - done.
  - intros id fa Hfa. destruct (A4 id fa Hfa) as (B1 & B2 & B3).
    split; [done|]. split; [done|]. intros n Hn.
    destruct (B3 n Hn) as (s & p & ? & ? & ?). exists s, p. by rewrite E.
  - intros n s p Hi Hin. rewrite E in Hin. eauto.
  - done.
  - intros n m s s' p p' Hn Hm Hin Him. rewrite E in Hin, Him. eauto.
Qed.

Lemma hasSubscribers_same P ch ch' bs :
  repr P ch bs → repr P ch' bs → hasSubscribers ch' = hasSubscribers ch.
Proof.
  intros H H'. pose proof (hasSubscribers_spec P ch bs H) as E.
  pose proof (hasSubscribers_spec P ch' bs H') as E'.
  destruct (hasSubscribers ch), (hasSubscribers ch'); try done.
  - by apply E', E.
  - symmetry. by apply E, E'.
Qed.

(** On a channel that is calling no node, [unsubscribe] undoes
    [subscribe]: the buckets are what they were. *)
Lemma Channel_subscribe_unsubscribe P ch bs self f priority context ch1 :
  repr P ch bs → ¬ registered ch bs f → _callingNode ch = None →
  Channel_subscribe P f priority context ch = Some (ch1, None) →
  ∃ ch2, Channel_unsubscribe P self f ch1 = (ch2, [], true) ∧ repr P ch2 bs ∧
         hasSubscribers ch2 = hasSubscribers ch ∧
         _commandMask ch2 = _commandMask ch.
Proof.
  intros Hbs Hnew Hcall Hs.
  destruct (Channel_subscribe_fresh P ch bs f priority context Hbs Hnew)
    as (ch1' & E & Hr1 & Hm1 & Hc1 & _ & Hinfo).
  assert (ch1' = ch1) as -> by congruence.
  apply info_Some in Hinfo as (nd & Hnd & Hsn & Hpn).
  set (new := allocated ch) in *.
  set (bs1 := bucket_set bs priority (bs priority ++ [new])) in *.
  assert (Hin1 : new ∈ bs1 (node_priority nd)).
  { rewrite Hpn. unfold bs1. rewrite bucket_set_eq. set_solver. }
  assert (Hfn : node_fn nd = f) by (unfold node_fn; by rewrite Hsn).
  assert (Hold : ∀ i, new ∉ bs i).
  { intros i Hi. destruct (pay_priority P _ _ _ _ (proj2 Hbs) _ _ Hi) as (s & Hs').
    assert (new < allocated ch)%nat; [|unfold new; lia].
    apply (pay_allocated P _ _ _ _ (proj2 Hbs)). by rewrite Hs'. }
  destruct (Channel_unsubscribe_buckets P ch1 bs1 self f Hr1)
    as (ch2 & b & bs2 & E2 & Hr2 & Hf2 & Hb2 & _ & _); [congruence|].
  assert (b = true) as -> by (apply Hb2; by exists new, nd).
  pose proof (holds_fn_unique P ch1 bs1 f new nd Hr1 Hnd Hin1 Hfn) as Hu.
  assert (Hbs2 : ∀ i, bs2 i = bs i).
  { intros i. rewrite Hf2. unfold bs1, bucket_set. case_decide as Hi.
    - subst i. rewrite filter_app, filter_cons_False, filter_nil, app_nil_r.
      + apply filter_all. intros m Hm. apply not_true_iff_false.
        rewrite (Hu priority m); [intros ->; by apply (Hold priority)|].
        unfold bs1. rewrite bucket_set_eq. set_solver.
      + apply not_false_iff_true. apply (Hu priority); [|done].
        unfold bs1. rewrite bucket_set_eq. set_solver.
    - apply filter_all. intros m Hm. apply not_true_iff_false.
      rewrite (Hu i m); [intros ->; by apply (Hold i)|].
      unfold bs1. by rewrite bucket_set_ne. }
  assert (Hr2' : repr P ch2 bs).
  { apply (repr_ext P ch2 bs2 bs); [by intros i; rewrite Hbs2|done]. }
  exists ch2. split; [done|]. split; [done|].
  split; [by apply (hasSubscribers_same P ch ch2 bs)|].
  pose proof (Channel_unsubscribe_mask P self f ch1) as Hm2.
  rewrite E2 in Hm2. simpl in Hm2. congruence.
Qed.

(** X10: subscribing a function that is not subscribed, to a channel
    that is not publishing, and unsubscribing it again: [unsubscribe]
    returns [true], every bucket of the channel holds the nodes it held
    before, in the same order, and the registry is what it was. A
    channel the [subscribe] had to create is deleted again; so is a
    channel that was there without a subscriber. *)
Theorem subscribe_then_unsubscribe (P : Program) (w : World) (name : string)
    (f : Function) (priority : option SubPriority) (context : value) :
  reachable P w →
  (∀ c ch, _channels w !! name = Some c → heap w !! c = Some ch →
     Z.land (_commandMask ch) PUBLISHING = 0 ∧ ¬ subscribed_fn ch f) →
  ∃ w1 c, PubSub_subscribe P name f priority context w = Some (w1, inr c) ∧
    (PubSub_unsubscribe P name f w1).2 = true ∧
    timers (PubSub_unsubscribe P name f w1).1 = timers w ∧
    (∀ other, other ≠ name →
       _channels (PubSub_unsubscribe P name f w1).1 !! other
       = _channels w !! other) ∧
    (∀ ch, _channels w !! name = Some c → heap w !! c = Some ch →
       ∃ ch2, heap (PubSub_unsubscribe P name f w1).1 !! c = Some ch2 ∧
         (∀ i l, bucket_nodes ch i l → bucket_nodes ch2 i l) ∧
         _commandMask ch2 = _commandMask ch ∧
         _channels (PubSub_unsubscribe P name f w1).1 !! name
         = if hasSubscribers ch then Some c else None) ∧
    (_channels w !! name = None →
     _channels (PubSub_unsubscribe P name f w1).1 !! name = None).
Proof.
  intros Hr Hfree. pose proof (reachable_wf P w Hr) as Hwf.
  destruct (PubSub_subscribe_wf P name f priority context w Hwf)
    as (w1 & r & Hs & Hwf1).
  destruct (PubSub_subscribe_cases P name f priority context w w1 r Hwf Hs)
    as [(c & ch & bs & Hc & Hch & Hbs & Hreg & -> & ->)
       |[(c & ch & bs & ch1 & Hc & Hch & Hbs & Hnew & E & -> & ->)
        |(ch1 & Hc & Hfresh & E & -> & ->)]].
  - destruct (Hfree c ch Hc Hch) as [_ Hno]. destruct Hno.
    by apply (subscribed_fn_registered P ch bs f Hbs).
  - destruct (Hfree c ch Hc Hch) as [Hidle _].
    assert (Hcall : _callingNode ch = None).
    { destruct (channel_state_tidy P w c ch Hr Hch) as [_ Hcn _].
      destruct (_callingNode ch); [by destruct Hcn|done]. }
    destruct (Channel_subscribe_unsubscribe P ch bs c f _ _ ch1 Hbs Hnew
                Hcall E) as (ch2 & E2 & Hr2 & Hhas & Hm2).
    exists (set_channel c ch1 w), c. split; [done|].
    unfold PubSub_unsubscribe. simpl. rewrite Hc, lookup_insert_eq, E2.
    rewrite Hhas. simpl. split_and!.
    + by destruct (hasSubscribers ch).
    + destruct (hasSubscribers ch); simpl; by rewrite app_nil_r.
    + intros other Hne. destruct (hasSubscribers ch); simpl; [done|].
      by rewrite lookup_delete_ne.
    + intros ch0 _ Hch0. assert (ch0 = ch) as -> by congruence.
      exists ch2. split_and!.
      * destruct (hasSubscribers ch); simpl; by rewrite lookup_insert_eq.
      * intros i l Hl. apply (bucket_nodes_repr P ch bs i l Hbs) in Hl as ->.
        by apply (bucket_nodes_repr P ch2 bs i _ Hr2).
      * done.
      * destruct (hasSubscribers ch); simpl; [done|].
        by rewrite lookup_delete_eq.
    + congruence.
  - set (c := fresh (dom (heap w))) in *.
    assert (Hnew : ¬ registered (new_Channel name) (λ _, []) f).
    { intros (n & nd & _ & Hin & _). by apply elem_of_nil in Hin. }
    destruct (Channel_subscribe_unsubscribe P (new_Channel name) (λ _, []) c f
                _ _ ch1 (repr_new P name) Hnew eq_refl E)
      as (ch2 & E2 & Hr2 & Hhas & Hm2).
    exists (set_channel c ch1
              (set_channels (<[name := c]> (_channels w))
                 (set_channel c (new_Channel name) w))), c.
    split; [done|].
    unfold PubSub_unsubscribe. simpl.
    assert (Hempty : hasSubscribers (new_Channel name) = false)
      by reflexivity.
    rewrite !lookup_insert_eq, E2, Hhas, Hempty. simpl. split_and!.
    + done.
    + by rewrite app_nil_r.
    + intros other Hne. rewrite lookup_delete_ne, lookup_insert_ne; done.
    + intros ch0 Hc0. congruence.
    + intros _. by rewrite lookup_delete_eq.
Qed.

Lemma mixed_without_7 : ¬ subscribed_fn mixed_channel 7%nat.
Proof.
  intros (i & n & nd & (l & Hl%mixed_bucket_nodes & Hn) & Hnd & Hf).
  subst l.
  do 5 (try destruct i as [|i]); simpl in Hn;
    repeat (apply elem_of_cons in Hn as [->|Hn]);
    try (apply elem_of_nil in Hn; destruct Hn);
    vm_compute in Hnd; injection Hnd as <-; vm_compute in Hf;
    discriminate Hf.
Qed.

Lemma subscribe_then_unsubscribe_witness :
  reachable Sample.client mixed ∧
  ∃ w1 c, PubSub_subscribe Sample.client "foo" 7 None VUndefined mixed
            = Some (w1, inr c) ∧
          (PubSub_unsubscribe Sample.client "foo" 7 w1).2 = true.
Proof.
  assert (Hname : _channels mixed !! "foo" = Some 0%nat)
    by (vm_compute; reflexivity).
  assert (Hch : heap mixed !! 0%nat = Some mixed_channel)
    by (vm_compute; reflexivity).
  assert (Hidle : Z.land (_commandMask mixed_channel) PUBLISHING = 0)
    by (vm_compute; reflexivity).
  split; [exact reachable_mixed|].
  destruct (subscribe_then_unsubscribe Sample.client mixed "foo" 7%nat None
              VUndefined reachable_mixed) as (w1 & c & H1 & H2 & _).
  - intros c ch Hc Hch0. rewrite Hname in Hc. injection Hc as <-.
    assert (ch = mixed_channel) as -> by congruence.
    split; [exact Hidle|exact mixed_without_7].
  - exists w1, c. split; [exact H1|exact H2].
Defined.

(** ** Publishing to handlers that only return or throw, again *)




Lemma reachable_watched : reachable Sample.client watched.
Proof.
  apply (reachable_subscribed Sample.client "foo" 1%nat
           (Some (mkSubPriority None)) VUndefined new_PubSub watched
           (inr 0%nat) (reachable_new _)).
  vm_compute. reflexivity.
Qed.


(** ** Publishing after an unsubscribe *)









(** On [Sample.row], without [spy]: the thrower and the third function
    are called. *)
Lemma publish_row_without_spy :
  (λ w', map call_fn (calls w'))
    <$> PubSub_publish Sample.client 30 "foo" [VNum 1]
          (PubSub_unsubscribe Sample.client "foo" 1 Sample.row).1
  = Some [0%nat; 5%nat].
Proof. vm_compute. reflexivity. Qed.

(** ** Subscribing during a publish *)











(** ** Unsubscribing during a publish *)













(** ** Publishing during a publish *)



















